(** * pgpool-II raw parser driver: src/parser/parser.c

    A shallow embedding of [raw_parser], [free_parser] and
    [filtered_base_yylex], the one-token lookahead filter that sits between
    the flex scanner ([base_yylex]) and the bison grammar ([base_yyparse]).

    The C file keeps its state in globals; the embedding threads a record
    [world] holding those globals through a small state monad whose
    outcomes are a normal return or a non-local exit ([longjmp]). *)

From Stdlib Require Import ZArith List String Bool Lia.
Import ListNotations.
Local Open Scope Z_scope.

(** ** Declarations parser.c takes from its headers *)

(** gram.h: the token numbers bison generates for the keywords the filter
    looks at.  Their values are not fixed by parser.c, so they are
    parameters of the whole development. *)
Class gram_h : Type := {
  NULLS_P : Z;  FIRST_P : Z;  LAST_P : Z;
  NULLS_FIRST : Z;  NULLS_LAST : Z;
  WITH : Z;  CASCADED : Z;  LOCAL : Z;  CHECK : Z;
  WITH_CASCADED : Z;  WITH_LOCAL : Z;  WITH_CHECK : Z
}.

(** Modelled from the spec: the kind of the end-of-input token is not in
    parser.c; flex scanners report end of input with 0. *)
Definition YYEOF : Z := 0.

(** A pool handle, [POOL_MEMORY_POOL *]; the null pointer is [None]. *)
Definition handle : Type := nat.

(** Calls into collaborators whose bodies are outside parser.c are recorded
    in the order they happen. *)
Inductive event : Type :=
| EvPoolCreate (h : handle)
| EvPoolDelete (p : option handle) (reuse : Z)
| EvScannerInit (str : string)
| EvParserInit
| EvScannerFinish.

Definition is_pool_create (e : event) : bool :=
  match e with EvPoolCreate _ => true | _ => false end.

Definition is_pool_delete (e : event) : bool :=
  match e with EvPoolDelete _ _ => true | _ => false end.

(** ** Control: normal return, [longjmp], or fuel that ran out

    The state type is left open here; parser.c instantiates it with its
    globals.  [Unfinished] only arises from the bounded loop that models
    the grammar engine, when its bound was too small. *)

Section Control.

Context {State : Type}.

Inductive outcome (A : Type) : Type :=
| Normal (a : A) (s : State)
| Longjmp (s : State)
| Unfinished.

Definition M (A : Type) : Type := State -> outcome A.

Definition ret {A : Type} (a : A) : M A := fun s => Normal A a s.

Definition bind {A B : Type} (m : M A) (k : A -> M B) : M B :=
  fun s => match m s with
           | Normal _ a s' => k a s'
           | Longjmp _ s' => Longjmp B s'
           | Unfinished _ => Unfinished B
           end.

Definition gets {A : Type} (f : State -> A) : M A := fun s => Normal A (f s) s.

Definition modify (f : State -> State) : M unit := fun s => Normal unit tt (f s).

(** [longjmp(jmpbuffer, 1)]: globals keep the values they have. *)
Definition longjmp {A : Type} : M A := fun s => Longjmp A s.

(** [if (setjmp(jmpbuffer) != 0) handler else body] *)
Definition setjmp {A : Type} (body handler : M A) : M A :=
  fun s => match body s with
           | Normal _ a s' => Normal A a s'
           | Longjmp _ s' => handler s'
           | Unfinished _ => Unfinished A
           end.

End Control.

Arguments outcome : clear implicits.
Arguments M : clear implicits.
Arguments Normal {State A} a s.
Arguments Longjmp {State A} s.
Arguments Unfinished {State A}.

Declare Scope parser_scope.
Delimit Scope parser_scope with parser.
Notation "x <- m ;; k" := (bind m (fun x => k))
  (at level 61, m at next level, right associativity) : parser_scope.
Notation "m ;; k" := (bind m (fun _ => k))
  (at level 61, right associativity) : parser_scope.
Local Open Scope parser_scope.

(** How a run of the grammar engine ends: [return yyresult], or
    [yyerror] jumping to the recovery point. *)
Inductive gfinal : Type :=
| GReturn (yyresult : Z)
| GRaise.

(** What the grammar engine does with one token: go on to the next token
    from a new automaton state, or end. *)
Inductive gaction (gstate : Type) : Type :=
| GShift (g : gstate)
| GStop (f : gfinal).
Arguments GShift {gstate} g.
Arguments GStop {gstate} f.

Section Parser.

(** [YYSTYPE] is the semantic value union, [YYLTYPE] the source location,
    [Node] a parse tree root; [List *] is [list Node] and [NIL] is [[]]. *)
Context {YYSTYPE YYLTYPE Node : Type}.
Context {G : gram_h}.

Definition NIL : list Node := [].

(** What the scanner hands over for one lexeme. *)
Record token : Type := mkToken {
  tok_kind : Z;
  tok_val : YYSTYPE;
  tok_loc : YYLTYPE
}.

(** What the scanner still has to deliver: a token, or a lexeme it cannot
    tokenize, at which it reports an error and jumps out. *)
Inductive scan_item : Type :=
| Tok (t : token)
| LexError.

(** ** The globals *)

Record world : Type := mkWorld {
  pool_memory : option handle;       (* pool_memory.h *)
  parsetree : list Node;             (* result of parsing is left here *)
  lookahead_token : Z;               (* one-token lookahead *)
  have_lookahead : bool;             (* lookahead_token set? *)
  lookahead_yylval : YYSTYPE;        (* yylval for lookahead token *)
  lookahead_yylloc : YYLTYPE;        (* yylloc for lookahead token *)
  base_yylval : YYSTYPE;             (* the grammar's yylval *)
  base_yylloc : YYLTYPE;             (* the grammar's yylloc *)
  scanbuf : list scan_item;          (* the scanner's pending input *)
  calls : list event                 (* collaborator calls so far *)
}.

Definition set_pool_memory (p : option handle) (w : world) : world :=
  mkWorld p (parsetree w) (lookahead_token w) (have_lookahead w)
          (lookahead_yylval w) (lookahead_yylloc w) (base_yylval w)
          (base_yylloc w) (scanbuf w) (calls w).

Definition set_parsetree (t : list Node) (w : world) : world :=
  mkWorld (pool_memory w) t (lookahead_token w) (have_lookahead w)
          (lookahead_yylval w) (lookahead_yylloc w) (base_yylval w)
          (base_yylloc w) (scanbuf w) (calls w).

Definition set_lookahead_token (k : Z) (w : world) : world :=
  mkWorld (pool_memory w) (parsetree w) k (have_lookahead w)
          (lookahead_yylval w) (lookahead_yylloc w) (base_yylval w)
          (base_yylloc w) (scanbuf w) (calls w).

Definition set_have_lookahead (b : bool) (w : world) : world :=
  mkWorld (pool_memory w) (parsetree w) (lookahead_token w) b
          (lookahead_yylval w) (lookahead_yylloc w) (base_yylval w)
          (base_yylloc w) (scanbuf w) (calls w).

Definition set_lookahead_yylval (v : YYSTYPE) (w : world) : world :=
  mkWorld (pool_memory w) (parsetree w) (lookahead_token w) (have_lookahead w)
          v (lookahead_yylloc w) (base_yylval w)
          (base_yylloc w) (scanbuf w) (calls w).

Definition set_lookahead_yylloc (l : YYLTYPE) (w : world) : world :=
  mkWorld (pool_memory w) (parsetree w) (lookahead_token w) (have_lookahead w)
          (lookahead_yylval w) l (base_yylval w)
          (base_yylloc w) (scanbuf w) (calls w).

Definition set_base_yylval (v : YYSTYPE) (w : world) : world :=
  mkWorld (pool_memory w) (parsetree w) (lookahead_token w) (have_lookahead w)
          (lookahead_yylval w) (lookahead_yylloc w) v
          (base_yylloc w) (scanbuf w) (calls w).

Definition set_base_yylloc (l : YYLTYPE) (w : world) : world :=
  mkWorld (pool_memory w) (parsetree w) (lookahead_token w) (have_lookahead w)
          (lookahead_yylval w) (lookahead_yylloc w) (base_yylval w)
          l (scanbuf w) (calls w).

Definition set_scanbuf (b : list scan_item) (w : world) : world :=
  mkWorld (pool_memory w) (parsetree w) (lookahead_token w) (have_lookahead w)
          (lookahead_yylval w) (lookahead_yylloc w) (base_yylval w)
          (base_yylloc w) b (calls w).

Definition log_call (e : event) (w : world) : world :=
  mkWorld (pool_memory w) (parsetree w) (lookahead_token w) (have_lookahead w)
          (lookahead_yylval w) (lookahead_yylloc w) (base_yylval w)
          (base_yylloc w) (scanbuf w) (calls w ++ [e]).

(** ** Collaborators outside parser.c *)

(** Modelled from the spec: the lexical rules of scan.l are missing.  The
    scanner "produces a sequence of (token-kind, token-value,
    source-location) triples on demand"; [scan] gives, for a query string,
    that sequence, with [LexError] where a lexeme cannot be tokenized. *)
Class scan_l : Type := {
  scan : string -> list scan_item
}.

(** Modelled from the spec: the grammar of gram.y is missing.  The engine
    is "a single entry point that repeatedly calls the Token Filter's
    next_token() and returns an integer status (accept/reject) plus
    populates the shared Parse Result"; the result slot is "write-only from
    the Grammar Engine's perspective".  [gstep] is its reaction to a token
    other than end of input, [geof] its reaction to end of input, after
    which it asks for no further token; each may assign [parsetree]. *)
Class gram_y : Type := {
  gstate : Type;
  ginit : gstate;
  gstep : gstate -> Z -> YYSTYPE -> YYLTYPE ->
          option (list Node) * gaction gstate;
  geof : gstate -> option (list Node) * gfinal
}.

Context {L : scan_l}.
Context {E : gram_y}.

(** Modelled from the spec: pool_memory.c is missing.  [create() -> handle]
    returns a handle to a new arena; the address chosen is one no earlier
    call returned. *)
Definition pool_memory_create : M world handle :=
  fun w => let h := S (List.length (calls w)) in
           Normal h (log_call (EvPoolCreate h) w).

(** Modelled from the spec: pool_memory.c is missing.
    [destroy(handle, flag)] releases the arena's memory; it receives the
    handle by value. *)
Definition pool_memory_delete (p : option handle) (reuse : Z) : M world unit :=
  modify (log_call (EvPoolDelete p reuse)).

(** Modelled from the spec: scan.l is missing.  [init(text)] starts the
    scanner over the input text. *)
Definition scanner_init (str : string) : M world unit :=
  modify (fun w => log_call (EvScannerInit str) (set_scanbuf (scan str) w)).

(** Modelled from the spec: scan.l is missing.  [finish()] finalizes the
    scanner; nothing is left of its input. *)
Definition scanner_finish : M world unit :=
  modify (fun w => log_call EvScannerFinish (set_scanbuf [] w)).

(** Modelled from the spec: gram.y is missing; [parser_init] prepares the
    grammar engine and touches none of parser.c's globals. *)
Definition parser_init : M world unit :=
  modify (log_call EvParserInit).

(** Modelled from the spec: scan.l is missing.  [next() -> Token]: the next
    triple goes to [base_yylval] / [base_yylloc] and its kind is returned; a
    lexeme that cannot be tokenized raises; at the end of the input the
    scanner reports [YYEOF] and leaves [base_yylval] / [base_yylloc] as they
    are. *)
Definition base_yylex : M world Z :=
  fun w => match scanbuf w with
           | [] => Normal YYEOF w
           | Tok t :: rest =>
               Normal (tok_kind t)
                      (set_base_yylloc (tok_loc t)
                         (set_base_yylval (tok_val t) (set_scanbuf rest w)))
           | LexError :: rest => Longjmp (set_scanbuf rest w)
           end.

(** ** parser.c: the filter *)

(** Lines 102-111 of [filtered_base_yylex]:
    "Get next token --- we might already have it". *)
Definition get_next_token : M world Z :=
  have <- gets have_lookahead ;;
  if have : bool then
    cur_token <- gets lookahead_token ;;
    v <- gets lookahead_yylval ;;
    modify (set_base_yylval v) ;;
    l <- gets lookahead_yylloc ;;
    modify (set_base_yylloc l) ;;
    modify (set_have_lookahead false) ;;
    ret cur_token
  else
    base_yylex.

(** The [default:] branch of both inner switches, lines 131-140 and
    169-178: "save the lookahead token for next time" and "back up the
    output info to cur_token". *)
Definition save_lookahead (next_token : Z) (cur_yylval : YYSTYPE)
    (cur_yylloc : YYLTYPE) : M world unit :=
  modify (set_lookahead_token next_token) ;;
  v <- gets base_yylval ;;
  modify (set_lookahead_yylval v) ;;
  l <- gets base_yylloc ;;
  modify (set_lookahead_yylloc l) ;;
  modify (set_have_lookahead true) ;;
  modify (set_base_yylval cur_yylval) ;;
  modify (set_base_yylloc cur_yylloc).

(** Lines 113-186 of [filtered_base_yylex]: "Do we need to look ahead for a
    possible multiword token?".  The [switch] statements are chains of
    tests in the order of their [case] labels. *)
Definition lookahead_switch (cur_token : Z) : M world Z :=
  if cur_token =? NULLS_P then
    cur_yylval <- gets base_yylval ;;
    cur_yylloc <- gets base_yylloc ;;
    next_token <- base_yylex ;;
    if next_token =? FIRST_P then ret NULLS_FIRST
    else if next_token =? LAST_P then ret NULLS_LAST
    else (save_lookahead next_token cur_yylval cur_yylloc ;; ret cur_token)
  else if cur_token =? WITH then
    cur_yylval <- gets base_yylval ;;
    cur_yylloc <- gets base_yylloc ;;
    next_token <- base_yylex ;;
    if next_token =? CASCADED then ret WITH_CASCADED
    else if next_token =? LOCAL then ret WITH_LOCAL
    else if next_token =? CHECK then ret WITH_CHECK
    else (save_lookahead next_token cur_yylval cur_yylloc ;; ret cur_token)
  else
    ret cur_token.

Definition filtered_base_yylex : M world Z :=
  cur_token <- get_next_token ;;
  lookahead_switch cur_token.

(** ** The grammar engine, pulling tokens through the filter *)

(** Modelled from the spec: gram.y is missing.  An action of the grammar
    that sets the result assigns the global [parsetree]. *)
Definition assign_parsetree (t : option (list Node)) : M world unit :=
  match t with
  | Some t' => modify (set_parsetree t')
  | None => ret tt
  end.

(** Modelled from the spec: gram.y is missing.  The engine ends by
    returning its status, or by [yyerror], which jumps to the recovery
    point. *)
Definition finish_parse (f : gfinal) : M world Z :=
  match f with
  | GReturn yyresult => ret yyresult
  | GRaise => longjmp
  end.

(** Modelled from the spec: gram.y is missing.  The engine "pulls tokens
    through the Token Filter until accept or error" and asks for no token
    after the end of input.  [fuel] bounds the number of tokens pulled. *)
Fixpoint yyparse_loop (fuel : nat) (g : gstate) : M world Z :=
  match fuel with
  | O => fun _ => Unfinished
  | S fuel' =>
      tok <- filtered_base_yylex ;;
      if tok =? YYEOF then
        assign_parsetree (fst (geof g)) ;;
        finish_parse (snd (geof g))
      else
        v <- gets base_yylval ;;
        l <- gets base_yylloc ;;
        assign_parsetree (fst (gstep g tok v l)) ;;
        match snd (gstep g tok v l) with
        | GShift g' => yyparse_loop fuel' g'
        | GStop f => finish_parse f
        end
  end.

(** Every token pulled shortens what is pending, so this many are enough
    (see [base_yyparse_finishes]). *)
Definition parse_fuel (w : world) : nat :=
  (2 * List.length (scanbuf w) + 3)%nat.

(** Modelled from the spec: gram.y is missing.  [base_yyparse] runs the
    engine from its initial state. *)
Definition base_yyparse : M world Z :=
  fun w => yyparse_loop (parse_fuel w) ginit w.

(** ** parser.c: the driver *)

(** Lines 50-57 of [raw_parser], up to the recovery point. *)
Definition raw_parser_prologue (str : string) : M world unit :=
  p <- gets pool_memory ;;
  match p with
  | None => h <- pool_memory_create ;; modify (set_pool_memory (Some h))
  | Some _ => ret tt
  end ;;
  modify (set_parsetree NIL) ;;
  modify (set_have_lookahead false) ;;
  scanner_init str ;;
  parser_init.

(** Lines 59-73 of [raw_parser]. *)
Definition raw_parser_body : M world (list Node) :=
  setjmp
    (yyresult <- base_yyparse ;;
     scanner_finish ;;
     if negb (yyresult =? 0) then ret NIL else gets parsetree)
    (scanner_finish ;;
     ret NIL).

Definition raw_parser (str : string) : M world (list Node) :=
  raw_parser_prologue str ;;
  raw_parser_body.

Definition free_parser : M world unit :=
  p <- gets pool_memory ;;
  pool_memory_delete p 1.

End Parser.

Arguments token : clear implicits.
Arguments scan_item : clear implicits.
Arguments world : clear implicits.
Arguments scan_l : clear implicits.
Arguments gram_y : clear implicits.

(** ** Notions the properties are stated with *)

Section Notions.

Context {YYSTYPE YYLTYPE Node : Type}.
Context {G : gram_h}.

Local Abbreviation token := (token YYSTYPE YYLTYPE).
Local Abbreviation scan_item := (scan_item YYSTYPE YYLTYPE).
Local Abbreviation world := (world YYSTYPE YYLTYPE Node).

(** The token numbers gram.h declares for the filter. *)
Definition gram_tokens : list Z :=
  [NULLS_P; FIRST_P; LAST_P; NULLS_FIRST; NULLS_LAST;
   WITH; CASCADED; LOCAL; CHECK; WITH_CASCADED; WITH_LOCAL; WITH_CHECK].

(** Bison gives every named token a number of its own, above the character
    codes and its reserved numbers. *)
Definition bison_numbering : Prop :=
  NoDup gram_tokens /\ Forall (fun k => 257 < k) gram_tokens.

(** The multiword tokens as the specification lists them:
    (trigger, continuation, merged kind). *)
Definition registered : list (Z * Z * Z) :=
  [(NULLS_P, FIRST_P, NULLS_FIRST);
   (NULLS_P, LAST_P, NULLS_LAST);
   (WITH, CASCADED, WITH_CASCADED);
   (WITH, LOCAL, WITH_LOCAL);
   (WITH, CHECK, WITH_CHECK)].

Definition is_trigger (k : Z) : bool := (k =? NULLS_P) || (k =? WITH).

Definition is_continuation (trigger k : Z) : bool :=
  existsb (fun r => (fst (fst r) =? trigger) && (snd (fst r) =? k)) registered.

(** The content of the lookahead slot, as a list of at most one token. *)
Definition slot (w : world) : list token :=
  if have_lookahead w
  then [mkToken (lookahead_token w) (lookahead_yylval w) (lookahead_yylloc w)]
  else [].

(** What the filter has not handed out yet: the slot, then the scanner's
    pending input. *)
Definition pending (w : world) : list scan_item :=
  map Tok (slot w) ++ scanbuf w.

(** The token the grammar sees after a call that returned [k]. *)
Definition output (k : Z) (w : world) : token :=
  mkToken k (base_yylval w) (base_yylloc w).

(** [covers out chunk]: the filter's output [out] stands for the scanner
    tokens [chunk], one token passed through or a registered pair fused. *)
Inductive covers : token -> list token -> Prop :=
| covers_single (t : token) : covers t [t]
| covers_merged (t1 t2 : token) (merged : Z) :
    In (tok_kind t1, tok_kind t2, merged) registered ->
    covers (mkToken merged (tok_val t2) (tok_loc t2)) [t1; t2].

(** [n] calls of a token source in a row, collecting what the caller sees
    after each. *)
Fixpoint pull (next : M world Z) (n : nat) : M world (list token) :=
  match n with
  | O => ret []
  | S n' =>
      k <- next ;;
      t <- gets (output k) ;;
      rest <- pull next n' ;;
      ret (t :: rest)
  end.

(** The world once token [t] is the current one and [rest] is what the
    scanner still holds. *)
Definition after_token (t : token) (rest : list scan_item) (w : world) : world :=
  set_have_lookahead false
    (set_base_yylloc (tok_loc t)
       (set_base_yylval (tok_val t) (set_scanbuf rest w))).

(** The world after a trigger [t1] was followed by [t2] and no merge
    happened: [t2] sits in the slot, the output is [t1] again. *)
Definition after_buffer (t1 t2 : token) (rest : list scan_item) (w : world)
  : world :=
  set_base_yylloc (tok_loc t1)
    (set_base_yylval (tok_val t1)
       (set_have_lookahead true
          (set_lookahead_yylloc (tok_loc t2)
             (set_lookahead_yylval (tok_val t2)
                (set_lookahead_token (tok_kind t2) (set_scanbuf rest w)))))).

(** [merges trigger continuation merged]: wherever a [trigger] token is the
    next one to hand out and a [continuation] token follows it, one call of
    the filter returns [merged] and both tokens are gone from what is
    pending; with an empty slot both came from the scanner. *)
Definition merges (trigger continuation merged : Z) : Prop :=
  forall (w : world) (t1 t2 : token) (rest : list scan_item),
    pending w = Tok t1 :: Tok t2 :: rest ->
    tok_kind t1 = trigger ->
    tok_kind t2 = continuation ->
    exists w',
      filtered_base_yylex w = Normal merged w' /\
      pending w' = rest /\
      slot w' = [] /\
      (have_lookahead w = false -> scanbuf w = Tok t1 :: Tok t2 :: scanbuf w').

(** The inner switches read as a function: the merged kind for a current
    token [k] and a next token [k2], if there is one. *)
Definition merge_of (k k2 : Z) : option Z :=
  if k =? NULLS_P then
    if k2 =? FIRST_P then Some NULLS_FIRST
    else if k2 =? LAST_P then Some NULLS_LAST
    else None
  else if k =? WITH then
    if k2 =? CASCADED then Some WITH_CASCADED
    else if k2 =? LOCAL then Some WITH_LOCAL
    else if k2 =? CHECK then Some WITH_CHECK
    else None
  else None.

(** [in_step r f]: a scanner called directly ([r]) and the scanner behind
    the filter ([f]) are at the same place, and the last token the former
    delivered is the one latest in the latter: the slot's if it is full,
    the current output otherwise. *)
Definition in_step (r f : world) : Prop :=
  scanbuf r = scanbuf f /\
  if have_lookahead f
  then base_yylval r = lookahead_yylval f /\ base_yylloc r = lookahead_yylloc f
  else base_yylval r = base_yylval f /\ base_yylloc r = base_yylloc f.

(** A bound on the calls of the filter that can still return something
    other than end of input: two for each item the scanner holds, and for
    a full slot two, or one if it holds the end-of-input report. *)
Definition pending_weight (w : world) : nat :=
  (2 * List.length (scanbuf w) +
   if have_lookahead w
   then (if Z.eqb (lookahead_token w) YYEOF then 1 else 2)
   else 0)%nat.

(** [holds_after P o]: the world an outcome ends in satisfies [P]. *)
Definition holds_after {A : Type} (P : world -> Prop)
    (o : outcome world A) : Prop :=
  match o with
  | Normal _ w' => P w'
  | Longjmp w' => P w'
  | Unfinished => True
  end.

(** What parser.c shares with the allocator and its record of calls. *)
Definition same_arena (w w' : world) : Prop :=
  pool_memory w' = pool_memory w /\ calls w' = calls w.

(** [keeps_arena m]: [m] neither touches [pool_memory] nor calls a
    collaborator that is recorded. *)
Definition keeps_arena {A : Type} (m : M world A) : Prop :=
  forall w : world, holds_after (same_arena w) (m w).

(** Two worlds in which a parse goes the same way: same scanner input,
    same parse tree result, same slot content. *)
Definition same_session (a b : world) : Prop :=
  scanbuf a = scanbuf b /\ parsetree a = parsetree b /\ slot a = slot b.

(** Outcomes that a caller of the grammar engine cannot tell apart. *)
Definition same_outcome (o1 o2 : outcome world Z) : Prop :=
  match o1, o2 with
  | Normal r1 w1, Normal r2 w2 => r1 = r2 /\ parsetree w1 = parsetree w2
  | Longjmp _, Longjmp _ => True
  | Unfinished, Unfinished => True
  | _, _ => False
  end.

(** The stream the grammar is to see for the scanner's stream [l]: going
    from the left, a token and its successor for which the inner switches
    have a merged kind ([merge_of]) become one token of that kind with the
    successor's value and location; any other token stays as it is. *)
Fixpoint fuse (l : list token) : list token :=
  match l with
  | [] => []
  | t1 :: tl =>
      match tl with
      | [] => [t1]
      | t2 :: rest =>
          match merge_of (tok_kind t1) (tok_kind t2) with
          | Some m => mkToken m (tok_val t2) (tok_loc t2) :: fuse rest
          | None => t1 :: fuse tl
          end
      end
  end.

(** The events a computation added to the call record. *)
Definition calls_since (w w' : world) : list event :=
  skipn (List.length (calls w)) (calls w').

End Notions.

Arguments keeps_arena {YYSTYPE YYLTYPE Node A} m.
Arguments merges YYSTYPE YYLTYPE Node {G} trigger continuation merged.

Section DriverNotions.

Context {YYSTYPE YYLTYPE Node : Type}.
Context {L : scan_l YYSTYPE YYLTYPE}.

Local Abbreviation world := (world YYSTYPE YYLTYPE Node).

(** The world in which [raw_parser] reaches its recovery point: the arena
    created if there was none, result and slot reset, scanner and grammar
    engine initialized (see [raw_parser_prologue_eq]). *)
Definition after_prologue (str : string) (w : world) : world :=
  let w1 :=
    match pool_memory w with
    | None =>
        set_pool_memory (Some (S (List.length (calls w))))
          (log_call (EvPoolCreate (S (List.length (calls w)))) w)
    | Some _ => w
    end in
  log_call EvParserInit
    (log_call (EvScannerInit str)
       (set_scanbuf (scan str)
          (set_have_lookahead false (set_parsetree NIL w1)))).

(** The world [scanner_finish] leaves. *)
Definition after_finish (w : world) : world :=
  log_call EvScannerFinish (set_scanbuf [] w).

(** The handle [raw_parser] leaves in [pool_memory] and the events for the
    allocator it adds, given the handle it finds. *)
Definition arena_after (w : world) : option handle :=
  match pool_memory w with
  | None => Some (S (List.length (calls w)))
  | Some h => Some h
  end.

Definition arena_events (w : world) : list event :=
  match pool_memory w with
  | None => [EvPoolCreate (S (List.length (calls w)))]
  | Some _ => []
  end.

End DriverNotions.

Section EngineNotions.

Context {YYSTYPE YYLTYPE Node : Type}.
Context {E : gram_y YYSTYPE YYLTYPE Node}.

(** A grammar none of whose actions sets the result: it "forgets to set
    it", as the comment at line 53 has it. *)
Definition never_assigns : Prop :=
  (forall (g : gstate) (k : Z) (v : YYSTYPE) (l : YYLTYPE),
      fst (gstep g k v l) = None) /\
  (forall g : gstate, fst (geof g) = None).

End EngineNotions.

Arguments never_assigns {YYSTYPE YYLTYPE Node} E.

(** ** A small instance to run the definitions on *)

Module Demo.

Definition demo_gram_h : gram_h :=
  {| NULLS_P := 258; FIRST_P := 259; LAST_P := 260;
     NULLS_FIRST := 261; NULLS_LAST := 262;
     WITH := 263; CASCADED := 264; LOCAL := 265; CHECK := 266;
     WITH_CASCADED := 267; WITH_LOCAL := 268; WITH_CHECK := 269 |}.

(** Two token numbers of no concern to the filter. *)
Definition SELECT : Z := 270.
Definition BAD : Z := 271.

Definition tk (k : Z) (v : string) (l : Z) : scan_item string Z :=
  Tok (mkToken k v l).

(** Values are the keyword text, locations byte offsets, nodes strings. *)
Definition demo_world (input : list (scan_item string Z)) : world string Z string :=
  mkWorld None [] 0 false EmptyString 0 EmptyString 0 input [].

Definition nulls_first_stream : list (scan_item string Z) :=
  [tk 258 "NULLS" 0; tk 259 "FIRST" 6; tk 0 "" 11].

Definition with_check_stream : list (scan_item string Z) :=
  [tk 263 "WITH" 0; tk 266 "CHECK" 5; tk 0 "" 10].

Definition with_select_stream : list (scan_item string Z) :=
  [tk 263 "WITH" 0; tk SELECT "SELECT" 5; tk 0 "" 11].

Definition with_with_check_stream : list (scan_item string Z) :=
  [tk 263 "WITH" 0; tk 263 "WITH" 5; tk 266 "CHECK" 10].

Definition nulls_eof_stream : list (scan_item string Z) :=
  [tk 258 "NULLS" 0; tk 0 "" 5].



(** A toy scanner: words it knows, end of input for the empty string, a
    lexical error on anything else. *)
Definition demo_scan_l : scan_l string Z :=
  {| scan := fun str =>
       if String.eqb str "WITH CHECK" then [tk 263 "WITH" 0; tk 266 "CHECK" 5]
       else if String.eqb str "SELECT" then [tk SELECT "SELECT" 0]
       else if String.eqb str "BAD" then [tk BAD "BAD" 0]
       else if String.eqb str "WITH" then [tk 263 "WITH" 0]
       else if String.eqb str "" then []
       else [LexError] |}.

(** A toy grammar: it rejects [SELECT] by its return value, raises on
    [BAD], collects the value of every other token, and sets the result
    on every token and at the end of input. *)
Definition demo_gram_y : gram_y string Z string :=
  {| gstate := list string;
     ginit := [];
     gstep := fun g k v _ =>
       if k =? SELECT then (Some (g ++ [v]), GStop (GReturn 1))
       else if k =? BAD then (Some (g ++ [v]), GStop GRaise)
       else (Some (g ++ [v]), GShift (g ++ [v]));
     geof := fun g => (Some g, GReturn 0) |}.

(** The world in which the grammar engine stops on a query. *)
Definition parse_end (str : string) : world string Z string :=
  match base_yyparse (G := demo_gram_h) (E := demo_gram_y)
          (after_prologue (L := demo_scan_l) str (demo_world [])) with
  | Normal _ w => w
  | Longjmp w => w
  | Unfinished => demo_world []
  end.

Definition lexical_error_end : world string Z string :=
  Eval cbv in parse_end "?".

Definition syntax_error_end : world string Z string :=
  Eval cbv in parse_end "BAD".

Definition reject_end : world string Z string :=
  Eval cbv in parse_end "SELECT".

(** A world an earlier parse has left a parse tree and a full slot in. *)
Definition stale_world : world string Z string :=
  mkWorld None ["stale"%string] 263 true "WITH"%string 0 EmptyString 0 [] [].

(** The world after one successful parse: the arena exists. *)
Definition parsed_world : world string Z string :=
  Eval cbv in
    match raw_parser (G := demo_gram_h) (L := demo_scan_l) (E := demo_gram_y)
            "WITH CHECK" (demo_world []) with
    | Normal _ w => w
    | _ => demo_world []
    end.

(** A toy grammar that accepts everything and never sets the result. *)
Definition demo_silent_gram_y : gram_y string Z string :=
  {| gstate := unit;
     ginit := tt;
     gstep := fun _ _ _ _ => (None, GShift tt);
     geof := fun _ => (None, GReturn 0) |}.

(** The world after the filter handed out WITH of WITH SELECT. *)
Definition with_select_1 : world string Z string :=
  Eval cbv in
    match filtered_base_yylex (G := demo_gram_h)
            (demo_world with_select_stream) with
    | Normal _ w => w
    | _ => demo_world []
    end.

(** NULLS SELECT BAD, and the world after the first call of the filter. *)
Definition nulls_select_bad_stream : list (scan_item string Z) :=
  [tk 258 "NULLS" 0; tk SELECT "SELECT" 6; tk BAD "BAD" 13].

Definition nulls_select_bad_1 : world string Z string :=
  Eval cbv in
    match filtered_base_yylex (G := demo_gram_h)
            (demo_world nulls_select_bad_stream) with
    | Normal _ w => w
    | _ => demo_world []
    end.

(** The worlds in which a parse of WITH CHECK ends when started in
    [stale_world], with the toy grammar and with the silent one. *)
Definition stale_parsed : world string Z string :=
  Eval cbv in
    match raw_parser (G := demo_gram_h) (L := demo_scan_l) (E := demo_gram_y)
            "WITH CHECK" stale_world with
    | Normal _ w => w
    | _ => demo_world []
    end.

Definition stale_silent_parsed : world string Z string :=
  Eval cbv in
    match raw_parser (G := demo_gram_h) (L := demo_scan_l)
            (E := demo_silent_gram_y) "WITH CHECK" stale_world with
    | Normal _ w => w
    | _ => demo_world []
    end.

End Demo.

(** * Properties *)

Section Facts.

Context {YYSTYPE YYLTYPE Node : Type}.
Context {G : gram_h}.

Local Abbreviation token := (token YYSTYPE YYLTYPE).
Local Abbreviation scan_item := (scan_item YYSTYPE YYLTYPE).
Local Abbreviation world := (world YYSTYPE YYLTYPE Node).
Local Abbreviation merges := (merges YYSTYPE YYLTYPE Node).
Local Abbreviation keeps_arena := (@keeps_arena YYSTYPE YYLTYPE Node _).

Local Arguments Z.eqb : simpl never.
Local Arguments is_trigger : simpl never.
Local Arguments merge_of : simpl never.

(** ** Token numbers *)

Lemma gram_tokens_distinct (i j : nat) :
  bison_numbering -> (i < 12)%nat -> (j < 12)%nat -> i <> j ->
  nth i gram_tokens 0 <> nth j gram_tokens 0.
Proof.
  intros [Hnd _] Hi Hj Hij Heq.
  apply Hij.
  apply (proj1 (NoDup_nth gram_tokens 0) Hnd); auto.
Qed.

Lemma gram_tokens_above (i : nat) :
  bison_numbering -> (i < 12)%nat -> 257 < nth i gram_tokens 0.
Proof.
  intros [_ Hgt] Hi.
  apply (proj1 (Forall_nth _ gram_tokens) Hgt); auto.
Qed.

Ltac token_facts H :=
  pose proof (gram_tokens_distinct 0 5 H ltac:(simpl; lia) ltac:(simpl; lia) ltac:(lia));
  pose proof (gram_tokens_distinct 1 2 H ltac:(simpl; lia) ltac:(simpl; lia) ltac:(lia));
  pose proof (gram_tokens_distinct 6 7 H ltac:(simpl; lia) ltac:(simpl; lia) ltac:(lia));
  pose proof (gram_tokens_distinct 6 8 H ltac:(simpl; lia) ltac:(simpl; lia) ltac:(lia));
  pose proof (gram_tokens_distinct 7 8 H ltac:(simpl; lia) ltac:(simpl; lia) ltac:(lia));
  pose proof (gram_tokens_distinct 5 6 H ltac:(simpl; lia) ltac:(simpl; lia) ltac:(lia));
  pose proof (gram_tokens_distinct 5 7 H ltac:(simpl; lia) ltac:(simpl; lia) ltac:(lia));
  pose proof (gram_tokens_distinct 5 8 H ltac:(simpl; lia) ltac:(simpl; lia) ltac:(lia));
  pose proof (gram_tokens_above 0 H ltac:(simpl; lia));
  pose proof (gram_tokens_above 1 H ltac:(simpl; lia));
  pose proof (gram_tokens_above 2 H ltac:(simpl; lia));
  pose proof (gram_tokens_above 5 H ltac:(simpl; lia));
  unfold YYEOF in *;
  simpl nth in *.

Lemma is_trigger_false (k : Z) :
  is_trigger k = false <-> k <> NULLS_P /\ k <> WITH.
Proof.
  unfold is_trigger. rewrite orb_false_iff, !Z.eqb_neq. tauto.
Qed.

Lemma is_trigger_true (k : Z) :
  is_trigger k = true <-> k = NULLS_P \/ k = WITH.
Proof.
  unfold is_trigger. rewrite orb_true_iff, !Z.eqb_eq. tauto.
Qed.

(** ** The first half of the filter: where the current token comes from *)

(** Whether the next token waits in the slot or in the scanner, fetching
    it leads to the same world. *)
Lemma get_next_token_pending (w : world) (t : token) (rest : list scan_item) :
  pending w = Tok t :: rest ->
  get_next_token w = Normal (tok_kind t) (after_token t rest w).
Proof.
  destruct w as [pm pt lt hl lv ll bv bl sb cs].
  unfold pending, slot, get_next_token, after_token, bind, gets, modify, ret,
    base_yylex.
  simpl. destruct hl; simpl; intros Hp.
  - inversion Hp; subst; reflexivity.
  - subst sb. reflexivity.
Qed.

Lemma filtered_pending (w : world) (t : token) (rest : list scan_item) :
  pending w = Tok t :: rest ->
  filtered_base_yylex w =
  lookahead_switch (tok_kind t) (after_token t rest w).
Proof.
  intros Hp. unfold filtered_base_yylex, bind.
  rewrite (get_next_token_pending w t rest Hp). reflexivity.
Qed.

(** ** The second half: the lookahead switch *)

Lemma lookahead_switch_merge (trigger continuation merged : Z) (w : world)
    (t1 t2 : token) (rest : list scan_item) :
  bison_numbering ->
  In (trigger, continuation, merged) registered ->
  tok_kind t1 = trigger ->
  tok_kind t2 = continuation ->
  lookahead_switch (tok_kind t1) (after_token t1 (Tok t2 :: rest) w) =
  Normal merged (after_token t2 rest w).
Proof.
  intros Hnum Hin Hk1 Hk2. token_facts Hnum.
  destruct t1 as [k1 v1 l1], t2 as [k2 v2 l2]. simpl in Hk1, Hk2.
  subst trigger continuation.
  unfold lookahead_switch, bind, gets, base_yylex, ret.
  simpl in Hin.
  destruct Hin as [Hin | [Hin | [Hin | [Hin | [Hin | []]]]]];
    injection Hin as <- <- <-;
    repeat first
      [ rewrite Z.eqb_refl
      | match goal with
        | |- context [?a =? ?b] =>
            destruct (Z.eqb_spec a b); [exfalso; congruence |]
        end
      | progress simpl ];
    reflexivity.
Qed.

Lemma filtered_merge (trigger continuation merged : Z) (w : world)
    (t1 t2 : token) (rest : list scan_item) :
  bison_numbering ->
  In (trigger, continuation, merged) registered ->
  pending w = Tok t1 :: Tok t2 :: rest ->
  tok_kind t1 = trigger ->
  tok_kind t2 = continuation ->
  filtered_base_yylex w = Normal merged (after_token t2 rest w).
Proof.
  intros Hnum Hin Hp Hk1 Hk2.
  rewrite (filtered_pending w t1 (Tok t2 :: rest) Hp).
  apply (lookahead_switch_merge trigger continuation merged); assumption.
Qed.

Lemma registered_merges (trigger continuation merged : Z) :
  bison_numbering ->
  In (trigger, continuation, merged) registered ->
  merges trigger continuation merged.
Proof.
  intros Hnum Hin w t1 t2 rest Hp Hk1 Hk2.
  exists (after_token t2 rest w).
  split; [ apply (filtered_merge trigger continuation merged w t1 t2 rest);
           assumption | ].
  repeat split.
  intros Hl. unfold pending, slot in Hp. rewrite Hl in Hp. exact Hp.
Qed.

Lemma is_continuation_false (k1 k2 : Z) :
  is_continuation k1 k2 = false ->
  (k1 = NULLS_P -> k2 <> FIRST_P /\ k2 <> LAST_P) /\
  (k1 = WITH -> k2 <> CASCADED /\ k2 <> LOCAL /\ k2 <> CHECK).
Proof.
  unfold is_continuation, registered. simpl.
  rewrite !orb_false_iff, !andb_false_iff, !Z.eqb_neq.
  intros (H1 & H2 & H3 & H4 & H5 & _).
  split; intros ->; repeat split; intros ->; tauto.
Qed.

Ltac decide_tests :=
  repeat first
    [ rewrite Z.eqb_refl
    | match goal with
      | |- context [?a =? ?b] =>
          destruct (Z.eqb_spec a b); [exfalso; (congruence || lia) |]
      end
    | progress simpl ].

(** A token that is no trigger passes through. *)
Lemma filtered_plain (w : world) (t : token) (rest : list scan_item) :
  pending w = Tok t :: rest ->
  is_trigger (tok_kind t) = false ->
  filtered_base_yylex w = Normal (tok_kind t) (after_token t rest w).
Proof.
  intros Hp Ht. apply is_trigger_false in Ht. destruct Ht as [Hn Hw].
  rewrite (filtered_pending w t rest Hp).
  unfold lookahead_switch, ret.
  decide_tests. reflexivity.
Qed.

(** A trigger followed by a token that does not continue it. *)
Lemma filtered_buffer (w : world) (t1 t2 : token) (rest : list scan_item) :
  pending w = Tok t1 :: Tok t2 :: rest ->
  is_trigger (tok_kind t1) = true ->
  is_continuation (tok_kind t1) (tok_kind t2) = false ->
  filtered_base_yylex w = Normal (tok_kind t1) (after_buffer t1 t2 rest w).
Proof.
  intros Hp Ht Hc.
  apply is_trigger_true in Ht. apply is_continuation_false in Hc.
  destruct Hc as [HcN HcW].
  rewrite (filtered_pending w t1 (Tok t2 :: rest) Hp).
  unfold lookahead_switch, save_lookahead, bind, gets, modify, base_yylex, ret.
  destruct (Z.eqb_spec (tok_kind t1) NULLS_P) as [e | n].
  - destruct (HcN e). simpl. decide_tests. reflexivity.
  - destruct Ht as [e | e]; [contradiction |].
    destruct (HcW e) as (? & ? & ?).
    rewrite (proj2 (Z.eqb_eq _ _) e). simpl. decide_tests. reflexivity.
Qed.

(** A trigger that is the last token the scanner has: the end-of-input
    report is what gets buffered. *)
Lemma filtered_buffer_eof (w : world) (t1 : token) :
  pending w = [Tok t1] ->
  is_trigger (tok_kind t1) = true ->
  is_continuation (tok_kind t1) YYEOF = false ->
  filtered_base_yylex w =
  Normal (tok_kind t1)
         (after_buffer t1 (mkToken YYEOF (tok_val t1) (tok_loc t1)) [] w).
Proof.
  intros Hp Ht Hc.
  apply is_trigger_true in Ht. apply is_continuation_false in Hc.
  destruct Hc as [HcN HcW].
  rewrite (filtered_pending w t1 [] Hp).
  unfold lookahead_switch, save_lookahead, bind, gets, modify, base_yylex, ret.
  destruct (Z.eqb_spec (tok_kind t1) NULLS_P) as [e | n].
  - destruct (HcN e). simpl. decide_tests. reflexivity.
  - destruct Ht as [e | e]; [contradiction |].
    destruct (HcW e) as (? & ? & ?).
    rewrite (proj2 (Z.eqb_eq _ _) e). simpl. decide_tests. reflexivity.
Qed.

Lemma output_eta (t : token) (rest : list scan_item) (w : world) :
  output (tok_kind t) (after_token t rest w) = t.
Proof. destruct t; reflexivity. Qed.

Lemma output_after_buffer (t1 t2 : token) (rest : list scan_item) (w : world) :
  output (tok_kind t1) (after_buffer t1 t2 rest w) = t1.
Proof. destruct t1; reflexivity. Qed.

Lemma slot_after_buffer (t1 t2 : token) (rest : list scan_item) (w : world) :
  slot (after_buffer t1 t2 rest w) = [t2].
Proof. destruct t2; reflexivity. Qed.

Lemma pending_after_buffer (t1 t2 : token) (rest : list scan_item) (w : world) :
  pending (after_buffer t1 t2 rest w) = Tok t2 :: rest.
Proof. destruct t2; reflexivity. Qed.

(** ** The filter, call by call *)

(** C1: wherever a trigger token is next and one of its registered
    continuations follows, one call of [filtered_base_yylex] returns the
    merged token and takes both tokens: NULLS FIRST gives NULLS_FIRST,
    NULLS LAST gives NULLS_LAST, WITH CASCADED / LOCAL / CHECK give
    WITH_CASCADED / WITH_LOCAL / WITH_CHECK. *)
Theorem filter_merges_registered_pairs :
  bison_numbering ->
  merges NULLS_P FIRST_P NULLS_FIRST /\
  merges NULLS_P LAST_P NULLS_LAST /\
  merges WITH CASCADED WITH_CASCADED /\
  merges WITH LOCAL WITH_LOCAL /\
  merges WITH CHECK WITH_CHECK.
Proof.
  intros Hnum.
  repeat split; apply registered_merges; try assumption; simpl; tauto.
Qed.

(** C2, as the code has it: when [filtered_base_yylex] merges a trigger
    with its continuation, [base_yylval] and [base_yylloc] stay as the
    scanner set them for the continuation token; the value and location
    saved from the trigger are not written back on this path. *)
Theorem merged_token_has_continuation_payload :
  bison_numbering ->
  forall (trigger continuation merged : Z),
    In (trigger, continuation, merged) registered ->
    forall (w : world) (t1 t2 : token) (rest : list scan_item),
      pending w = Tok t1 :: Tok t2 :: rest ->
      tok_kind t1 = trigger ->
      tok_kind t2 = continuation ->
      exists w',
        filtered_base_yylex w = Normal merged w' /\
        base_yylval w' = tok_val t2 /\
        base_yylloc w' = tok_loc t2.
Proof.
  intros Hnum trigger continuation merged Hin w t1 t2 rest Hp Hk1 Hk2.
  exists (after_token t2 rest w).
  split; [| split; reflexivity].
  apply (filtered_merge trigger continuation merged w t1 t2 rest); assumption.
Qed.


(** C8: on NULLS followed by the end-of-input token the filter returns
    NULLS, then the end-of-input token, both as the scanner delivered them;
    the same holds when the scanner has nothing after NULLS and reports end
    of input by itself.  Neither call jumps out. *)
Theorem trigger_at_end_of_stream :
  bison_numbering ->
  (forall (w : world) (t1 eof : token) (rest : list scan_item),
      pending w = Tok t1 :: Tok eof :: rest ->
      tok_kind t1 = NULLS_P -> tok_kind eof = YYEOF ->
      exists w1 w2,
        filtered_base_yylex w = Normal NULLS_P w1 /\
        output NULLS_P w1 = t1 /\
        slot w1 = [eof] /\
        filtered_base_yylex w1 = Normal YYEOF w2 /\
        output YYEOF w2 = eof /\
        slot w2 = [] /\
        scanbuf w2 = rest) /\
  (forall (w : world) (t1 : token),
      pending w = [Tok t1] ->
      tok_kind t1 = NULLS_P ->
      exists w1 w2,
        filtered_base_yylex w = Normal NULLS_P w1 /\
        output NULLS_P w1 = t1 /\
        slot w1 = [mkToken YYEOF (tok_val t1) (tok_loc t1)] /\
        filtered_base_yylex w1 = Normal YYEOF w2 /\
        slot w2 = [] /\
        scanbuf w2 = []).
Proof.
  intros Hnum. token_facts Hnum.
  assert (Heof : is_trigger 0 = false).
  { apply is_trigger_false. lia. }
  assert (Hcont : is_continuation NULLS_P 0 = false).
  { unfold is_continuation, registered. simpl.
    decide_tests. rewrite ?andb_false_r. reflexivity. }
  split.
  - intros w t1 eof rest Hp Hk1 Hk2. unfold YYEOF in *.
    exists (after_buffer t1 eof rest w).
    exists (after_token eof rest (after_buffer t1 eof rest w)).
    assert (Htrig : is_trigger (tok_kind t1) = true).
    { apply is_trigger_true. auto. }
    split; [rewrite <- Hk1; apply filtered_buffer; try assumption;
            rewrite Hk1, Hk2; assumption |].
    split; [rewrite <- Hk1; apply output_after_buffer |].
    split; [apply slot_after_buffer |].
    split; [rewrite <- Hk2; apply filtered_plain;
            [apply pending_after_buffer | rewrite Hk2; assumption] |].
    split; [rewrite <- Hk2; apply output_eta |].
    split; reflexivity.
  - intros w t1 Hp Hk1. unfold YYEOF in *.
    set (eof := mkToken 0 (tok_val t1) (tok_loc t1) : token).
    exists (after_buffer t1 eof [] w).
    exists (after_token eof [] (after_buffer t1 eof [] w)).
    assert (Htrig : is_trigger (tok_kind t1) = true).
    { apply is_trigger_true. auto. }
    split; [rewrite <- Hk1; apply filtered_buffer_eof; try assumption;
            rewrite Hk1; assumption |].
    split; [rewrite <- Hk1; apply output_after_buffer |].
    split; [reflexivity |].
    split; [| split; reflexivity].
    apply (filtered_plain _ eof []); [reflexivity | assumption].
Qed.

(** ** The filter against the scanner called directly *)

Lemma merge_of_registered (k k2 m : Z) :
  merge_of k k2 = Some m -> In (k, k2, m) registered.
Proof.
  unfold merge_of, registered.
  repeat match goal with
         | |- context [?a =? ?b] => destruct (Z.eqb_spec a b); subst
         end;
    intros H; inversion H; subst; simpl; tauto.
Qed.

(** The switch, by cases on what it was given. *)
Lemma lookahead_switch_cases (k : Z) (w : world) :
  lookahead_switch k w =
  if is_trigger k then
    match base_yylex w with
    | Normal k2 w2 =>
        match merge_of k k2 with
        | Some m => Normal m w2
        | None =>
            Normal k (after_buffer (output k w) (output k2 w2) (scanbuf w2) w2)
        end
    | Longjmp w2 => Longjmp w2
    | Unfinished => Unfinished
    end
  else Normal k w.
Proof.
  unfold lookahead_switch, is_trigger, merge_of, save_lookahead, bind, gets,
    modify, ret.
  destruct (Z.eqb_spec k NULLS_P); simpl.
  - destruct (base_yylex w) as [k2 w2 | |]; try reflexivity.
    destruct (Z.eqb_spec k2 FIRST_P); [reflexivity |].
    destruct (Z.eqb_spec k2 LAST_P); [reflexivity |].
    destruct w2; reflexivity.
  - destruct (Z.eqb_spec k WITH); simpl; [| reflexivity].
    destruct (base_yylex w) as [k2 w2 | |]; try reflexivity.
    destruct (Z.eqb_spec k2 CASCADED); [reflexivity |].
    destruct (Z.eqb_spec k2 LOCAL); [reflexivity |].
    destruct (Z.eqb_spec k2 CHECK); [reflexivity |].
    destruct w2; reflexivity.
Qed.

(** One call of the scanner from two worlds that agree on its state. *)
Lemma base_yylex_in_step (r f f' : world) (k : Z) :
  scanbuf r = scanbuf f ->
  base_yylval r = base_yylval f ->
  base_yylloc r = base_yylloc f ->
  base_yylex f = Normal k f' ->
  exists r',
    base_yylex r = Normal k r' /\
    scanbuf r' = scanbuf f' /\
    base_yylval r' = base_yylval f' /\
    base_yylloc r' = base_yylloc f' /\
    have_lookahead f' = have_lookahead f.
Proof.
  unfold base_yylex. intros Hs Hv Hl. rewrite Hs.
  destruct (scanbuf f) as [| [t |] rest] eqn:Hf; intros H; inversion H; subst.
  - exists r. repeat split; congruence.
  - eexists. split; [reflexivity |]. simpl. auto.
Qed.

Lemma pull_one (next : M world Z) (w w' : world) (k : Z) :
  next w = Normal k w' ->
  pull next 1 w = Normal [output k w'] w'.
Proof.
  intros H. simpl. unfold bind, gets, ret. rewrite H. reflexivity.
Qed.

Lemma pull_succ (next : M world Z) (n : nat) (w w1 w2 : world) (k : Z)
    (l : list token) :
  next w = Normal k w1 ->
  pull next n w1 = Normal l w2 ->
  pull next (S n) w = Normal (output k w1 :: l) w2.
Proof.
  intros H1 H2. simpl. unfold bind, gets, ret. rewrite H1, H2. reflexivity.
Qed.

Lemma pull_app (next : M world Z) (a b : nat) :
  forall (w w1 w2 : world) (l1 l2 : list token),
    pull next a w = Normal l1 w1 ->
    pull next b w1 = Normal l2 w2 ->
    pull next (a + b) w = Normal (l1 ++ l2) w2.
Proof.
  induction a as [| a IH]; intros w w1 w2 l1 l2 H1 H2.
  - simpl in H1. unfold ret in H1. inversion H1; subst. exact H2.
  - simpl in H1. unfold bind, gets, ret in H1.
    destruct (next w) as [k wa | |] eqn:Hn; try discriminate.
    destruct (pull next a wa) as [la wb | |] eqn:Hp; try discriminate.
    inversion H1; subst.
    simpl. apply (pull_succ next (a + b) w wa w2 k (la ++ l2) Hn).
    apply (IH wa w1 w2 la l2); assumption.
Qed.

Lemma bind_cases {A B : Type} (m : M world A) (k : A -> M world B)
    (w : world) :
  bind m k w =
  match m w with
  | Normal a w' => k a w'
  | Longjmp w' => Longjmp w'
  | Unfinished => Unfinished
  end.
Proof. reflexivity. Qed.

Lemma output_agree (k : Z) (r w : world) :
  base_yylval r = base_yylval w ->
  base_yylloc r = base_yylloc w ->
  output k r = output k w.
Proof. unfold output. intros -> ->. reflexivity. Qed.

(** What the switch hands out stands for the current token, alone or fused
    with the one token it made the scanner deliver. *)
Lemma switch_accounts (k k' : Z) (r w f' : world) :
  have_lookahead w = false ->
  scanbuf r = scanbuf w ->
  base_yylval r = base_yylval w ->
  base_yylloc r = base_yylloc w ->
  lookahead_switch k w = Normal k' f' ->
  exists (chunk new : list token) (r' : world),
    covers (output k' f') chunk /\
    output k w :: new = chunk ++ slot f' /\
    pull base_yylex (List.length new) r = Normal new r' /\
    in_step r' f'.
Proof.
  intros Hl Hs Hv Hloc. rewrite lookahead_switch_cases.
  destruct (is_trigger k) eqn:Ht.
  - destruct (base_yylex w) as [k2 w2 | |] eqn:Hb; try discriminate.
    destruct (base_yylex_in_step r w w2 k2 Hs Hv Hloc Hb)
      as (r2 & Hr & Hs2 & Hv2 & Hloc2 & Hl2).
    rewrite Hl in Hl2.
    destruct (merge_of k k2) as [m |] eqn:Hm; intros H; inversion H; subst.
    + exists [output k w; output k2 f'], [output k2 f'], r2.
      split.
      { apply (covers_merged (output k w) (output k2 f') k').
        apply merge_of_registered. exact Hm. }
      split.
      { unfold slot. rewrite Hl2. reflexivity. }
      split.
      { rewrite <- (output_agree k2 r2 f' Hv2 Hloc2).
        apply pull_one. exact Hr. }
      unfold in_step. rewrite Hl2. auto.
    + exists [output k' w], [output k2 w2], r2.
      split; [apply covers_single |].
      split; [reflexivity |].
      split.
      { rewrite <- (output_agree k2 r2 w2 Hv2 Hloc2).
        apply pull_one. exact Hr. }
      unfold in_step. simpl. auto.
  - intros H; inversion H; subst.
    exists [output k' f'], [], r.
    split; [apply covers_single |].
    split; [unfold slot; rewrite Hl; reflexivity |].
    split; [reflexivity |].
    unfold in_step. rewrite Hl. auto.
Qed.

(** One call of the filter. *)
Lemma filter_step_accounts (r f f' : world) (k : Z) :
  in_step r f ->
  filtered_base_yylex f = Normal k f' ->
  exists (chunk new : list token) (r' : world),
    covers (output k f') chunk /\
    slot f ++ new = chunk ++ slot f' /\
    pull base_yylex (List.length new) r = Normal new r' /\
    in_step r' f'.
Proof.
  intros [Hs Hpay] H.
  unfold filtered_base_yylex, bind in H.
  destruct (get_next_token f) as [k0 w | |] eqn:Hg; try discriminate.
  unfold get_next_token, bind, gets, modify, ret in Hg.
  destruct (have_lookahead f) eqn:Hl.
  - inversion Hg; subst k0 w; clear Hg.
    destruct Hpay as [Hv Hloc].
    destruct (switch_accounts (lookahead_token f) k r
                (set_have_lookahead false
                   (set_base_yylloc (lookahead_yylloc f)
                      (set_base_yylval (lookahead_yylval f) f)))
                f' eq_refl Hs Hv Hloc H)
      as (chunk & new & r' & Hc & Hsplit & Hpull & Hstep).
    exists chunk, new, r'.
    split; [exact Hc |].
    split; [| split; assumption].
    unfold slot at 1. rewrite Hl. exact Hsplit.
  - destruct Hpay as [Hv Hloc].
    destruct (base_yylex_in_step r f w k0 Hs Hv Hloc Hg)
      as (r1 & Hr & Hs1 & Hv1 & Hloc1 & Hl1).
    rewrite Hl in Hl1.
    destruct (switch_accounts _ _ r1 _ _ Hl1 Hs1 Hv1 Hloc1 H)
      as (chunk & new & r' & Hc & Hsplit & Hpull & Hstep).
    exists chunk, (output k0 w :: new), r'.
    split; [exact Hc |].
    split; [unfold slot at 1; rewrite Hl; exact Hsplit |].
    split; [| exact Hstep].
    rewrite <- (output_agree k0 r1 w Hv1 Hloc1).
    apply (pull_succ base_yylex (List.length new) r r1 r' k0 new Hr Hpull).
Qed.

(** Any number of calls. *)
Lemma filter_run_accounts (n : nat) :
  forall (r f f' : world) (outs : list token),
    in_step r f ->
    pull filtered_base_yylex n f = Normal outs f' ->
    exists (chunks : list (list token)) (new : list token) (r' : world),
      Forall2 covers outs chunks /\
      slot f ++ new = List.concat chunks ++ slot f' /\
      pull base_yylex (List.length new) r = Normal new r' /\
      in_step r' f'.
Proof.
  induction n as [| n IH]; intros r f f' outs Hstep H.
  - simpl in H. unfold ret in H. inversion H; subst.
    exists [], [], r. simpl. rewrite app_nil_r. auto.
  - simpl in H. unfold bind, gets, ret in H.
    destruct (filtered_base_yylex f) as [k f1 | |] eqn:Hf; try discriminate.
    destruct (pull filtered_base_yylex n f1) as [outs1 f2 | |] eqn:Hp;
      try discriminate.
    inversion H; subst; clear H.
    destruct (filter_step_accounts r f f1 k Hstep Hf)
      as (chunk & new1 & r1 & Hc & Hsplit1 & Hpull1 & Hstep1).
    destruct (IH r1 f1 f' outs1 Hstep1 Hp)
      as (chunks & new2 & r2 & Hcs & Hsplit2 & Hpull2 & Hstep2).
    exists (chunk :: chunks), (new1 ++ new2), r2.
    split; [constructor; assumption |].
    split.
    { simpl. rewrite app_assoc, Hsplit1, <- !app_assoc, Hsplit2. reflexivity. }
    split; [| exact Hstep2].
    rewrite length_app.
    apply (pull_app base_yylex _ _ r r1 r2 new1 new2 Hpull1 Hpull2).
Qed.

Lemma covers_length (t : token) (chunk : list token) :
  covers t chunk -> (1 <= List.length chunk <= 2)%nat.
Proof. intros H; inversion H; simpl; lia. Qed.

Lemma covers_all_length (outs : list token) (chunks : list (list token)) :
  Forall2 covers outs chunks ->
  (List.length outs <= List.length (List.concat chunks) <= 2 * List.length outs)%nat.
Proof.
  induction 1 as [| t chunk outs chunks Hc _ IH]; simpl; [lia |].
  rewrite length_app. pose proof (covers_length t chunk Hc). lia.
Qed.

Lemma pull_length (next : M world Z) (n : nat) :
  forall (w w' : world) (l : list token),
    pull next n w = Normal l w' -> List.length l = n.
Proof.
  induction n as [| n IH]; intros w w' l H; simpl in H.
  - unfold ret in H. inversion H. reflexivity.
  - unfold bind, gets, ret in H.
    destruct (next w) as [k w1 | |]; try discriminate.
    destruct (pull next n w1) as [l1 w2 | |] eqn:Hp; try discriminate.
    inversion H; subst. simpl. f_equal. apply (IH w1 w'). exact Hp.
Qed.

(** While the scanner still has input, what it delivers is its input. *)
Lemma pull_scanner_prefix (n : nat) :
  forall (w w' : world) (l : list token),
    pull base_yylex n w = Normal l w' ->
    (n <= List.length (scanbuf w))%nat ->
    map Tok l ++ scanbuf w' = scanbuf w.
Proof.
  induction n as [| n IH]; intros w w' l H Hn; simpl in H.
  - unfold ret in H. inversion H; subst. reflexivity.
  - unfold bind, gets, ret in H.
    destruct (base_yylex w) as [k w1 | |] eqn:Hb; try discriminate.
    destruct (pull base_yylex n w1) as [l1 w2 | |] eqn:Hp; try discriminate.
    inversion H; subst; clear H.
    unfold base_yylex in Hb.
    destruct (scanbuf w) as [| [t |] rest] eqn:Hsb; simpl in Hn; try lia;
      try discriminate.
    inversion Hb; subst; clear Hb.
    simpl. f_equal.
    + destruct t; reflexivity.
    + apply (IH _ _ _ Hp). simpl. lia.
Qed.

(** On a stream of tokens neither the scanner nor the filter jumps out. *)
Lemma base_yylex_on_tokens (w : world) (l : list token) :
  scanbuf w = map Tok l ->
  exists (k : Z) (w' : world) (l' : list token),
    base_yylex w = Normal k w' /\ scanbuf w' = map Tok l' /\
    have_lookahead w' = have_lookahead w.
Proof.
  intros Hs. unfold base_yylex. rewrite Hs.
  destruct l as [| t l1]; simpl.
  - exists YYEOF, w, []. auto.
  - eexists; eexists; exists l1. split; [reflexivity |]. auto.
Qed.

Lemma filtered_on_tokens (w : world) (l : list token) :
  scanbuf w = map Tok l ->
  exists (k : Z) (w' : world) (l' : list token),
    filtered_base_yylex w = Normal k w' /\ scanbuf w' = map Tok l'.
Proof.
  intros Hs.
  assert (Hnext : exists (k0 : Z) (w0 : world) (l0 : list token),
             get_next_token w = Normal k0 w0 /\ scanbuf w0 = map Tok l0).
  { unfold get_next_token, bind, gets, modify, ret.
    destruct (have_lookahead w).
    - eexists; eexists; exists l. split; [reflexivity | exact Hs].
    - destruct (base_yylex_on_tokens w l Hs) as (k0 & w0 & l0 & Hb & Hs0 & _).
      exists k0, w0, l0. auto. }
  destruct Hnext as (k0 & w0 & l0 & Hg & Hs0).
  unfold filtered_base_yylex. rewrite bind_cases, Hg, lookahead_switch_cases.
  destruct (is_trigger k0); [| exists k0, w0, l0; auto].
  destruct (base_yylex_on_tokens w0 l0 Hs0) as (k2 & w2 & l2 & Hb & Hs2 & _).
  rewrite Hb.
  destruct (merge_of k0 k2); eexists; eexists; exists l2;
    (split; [reflexivity | exact Hs2]).
Qed.

Lemma pull_filtered_on_tokens (n : nat) :
  forall (w : world) (l : list token),
    scanbuf w = map Tok l ->
    exists (outs : list token) (w' : world),
      pull filtered_base_yylex n w = Normal outs w'.
Proof.
  induction n as [| n IH]; intros w l Hs.
  - exists [], w. reflexivity.
  - destruct (filtered_on_tokens w l Hs) as (k & w1 & l1 & Hf & Hs1).
    destruct (IH w1 l1 Hs1) as (outs & w' & Hp).
    exists (output k w1 :: outs), w'.
    apply (pull_succ _ _ _ _ _ _ _ Hf Hp).
Qed.

(** C5: on every stream of tokens, any number of calls of the filter,
    starting with an empty slot, returns; the tokens the scanner has
    delivered by then are, in order and each once, the tokens the outputs
    stand for (one each, or two fused by a merge) followed by what is in
    the slot, which is at most one token; every call accounts for at least
    one scanner token; and as long as the scanner was not asked beyond its
    input, these tokens and the rest of its input make up the input. *)
Theorem filter_accounts_for_every_token :
  forall (l : list token) (n : nat) (w : world),
    slot w = [] ->
    scanbuf w = map Tok l ->
    exists (outs : list token) (w' : world)
           (chunks : list (list token)) (r : world),
      pull filtered_base_yylex n w = Normal outs w' /\
      Forall2 covers outs chunks /\
      pull base_yylex (List.length (List.concat chunks ++ slot w')) w =
        Normal (List.concat chunks ++ slot w') r /\
      scanbuf r = scanbuf w' /\
      (List.length (slot w') <= 1)%nat /\
      (n <= List.length (List.concat chunks) <= 2 * n)%nat /\
      ((List.length (List.concat chunks ++ slot w') <= List.length l)%nat ->
       map Tok (List.concat chunks ++ slot w') ++ scanbuf w' = map Tok l).
Proof.
  intros l n w Hslot Hl.
  destruct (pull_filtered_on_tokens n w l Hl) as (outs & w' & H).
  assert (Hstep : in_step w w).
  { unfold in_step. unfold slot in Hslot.
    destruct (have_lookahead w); [discriminate | auto]. }
  destruct (filter_run_accounts n w w w' outs Hstep H)
    as (chunks & new & r & Hcs & Hsplit & Hpull & [Hsb _]).
  rewrite Hslot in Hsplit. simpl in Hsplit. subst new.
  exists outs, w', chunks, r.
  split; [exact H |].
  split; [exact Hcs |].
  split; [exact Hpull |].
  split; [exact Hsb |].
  split; [unfold slot; destruct (have_lookahead w'); simpl; lia |].
  split.
  { pose proof (covers_all_length outs chunks Hcs) as Hlen.
    rewrite (pull_length _ _ _ _ _ H) in Hlen. exact Hlen. }
  intros Hle. rewrite <- Hsb, <- Hl.
  apply (pull_scanner_prefix _ _ _ _ Hpull).
  rewrite Hl, length_map. exact Hle.
Qed.

(** ** The grammar engine's loop ends *)

Context {L : scan_l YYSTYPE YYLTYPE}.
Context {E : gram_y YYSTYPE YYLTYPE Node}.

Lemma base_yylex_cases (w w' : world) (k : Z) :
  base_yylex w = Normal k w' ->
  (scanbuf w = [] /\ k = YYEOF /\ w' = w) \/
  (exists (t : token) (rest : list scan_item),
      scanbuf w = Tok t :: rest /\ k = tok_kind t /\
      w' = set_base_yylloc (tok_loc t)
             (set_base_yylval (tok_val t) (set_scanbuf rest w))).
Proof.
  unfold base_yylex.
  destruct (scanbuf w) as [| [t |] rest]; intros H; inversion H; subst.
  - left. auto.
  - right. exists t, rest. auto.
Qed.

Lemma switch_weight (k0 k : Z) (w w' : world) :
  have_lookahead w = false ->
  lookahead_switch k0 w = Normal k w' ->
  (is_trigger k0 = false /\ k = k0 /\
   pending_weight w' = (2 * List.length (scanbuf w))%nat) \/
  (is_trigger k0 = true /\
   (pending_weight w' < 2 * List.length (scanbuf w) + 2)%nat).
Proof.
  intros Hl. rewrite lookahead_switch_cases.
  destruct (is_trigger k0) eqn:Ht.
  - destruct (base_yylex w) as [k2 w2 | |] eqn:Hb; try discriminate.
    intros H. right. split; [reflexivity |].
    destruct (base_yylex_cases w w2 k2 Hb)
      as [(Hs & Hk & Hw) | (t & rest & Hs & Hk & Hw)]; subst k2 w2.
    + rewrite Hs.
      destruct (merge_of k0 YYEOF); inversion H; subst;
        unfold pending_weight; simpl; rewrite ?Hs, ?Hl; simpl; lia.
    + rewrite Hs.
      destruct (merge_of k0 (tok_kind t)); inversion H; subst;
        unfold pending_weight; simpl; rewrite ?Hl; simpl;
        try destruct (tok_kind t =? YYEOF); lia.
  - intros H. inversion H; subst. left.
    unfold pending_weight. rewrite Hl. auto with arith.
Qed.

(** A call that returns something other than end of input lowers the
    bound. *)
Lemma filter_weight (w w' : world) (k : Z) :
  is_trigger YYEOF = false ->
  filtered_base_yylex w = Normal k w' ->
  k <> YYEOF ->
  (pending_weight w' < pending_weight w)%nat.
Proof.
  intros Heof H Hk.
  unfold filtered_base_yylex, bind in H.
  destruct (get_next_token w) as [k0 w0 | |] eqn:Hg; try discriminate.
  unfold get_next_token, bind, gets, modify, ret in Hg.
  destruct (have_lookahead w) eqn:Hl.
  - inversion Hg; subst k0 w0; clear Hg.
    pose proof (fun Hx => switch_weight _ _ _ _ Hx H) as Hsw.
    destruct (Hsw eq_refl) as [(Ht & Hkk & Hw) | (Ht & Hw)]; clear Hsw;
      unfold pending_weight at 2; rewrite Hl; simpl in Hw.
    + subst k. destruct (Z.eqb_spec (lookahead_token w) YYEOF);
        [contradiction | lia].
    + destruct (Z.eqb_spec (lookahead_token w) YYEOF) as [e | n];
        [rewrite e in Ht; congruence | lia].
  - destruct (base_yylex_cases w w0 k0 Hg)
      as [(Hs & Hk0 & Hw0) | (t & rest & Hs & Hk0 & Hw0)]; subst k0 w0.
    + destruct (switch_weight _ _ _ _ Hl H)
        as [(Ht & Hkk & Hw) | (Ht & Hw)]; congruence.
    + pose proof (fun Hx => switch_weight _ _ _ _ Hx H) as Hsw.
      simpl in Hsw.
      destruct (Hsw Hl) as [(Ht & Hkk & Hw) | (Ht & Hw)]; clear Hsw;
        unfold pending_weight at 2; rewrite Hl, Hs; simpl in *; lia.
Qed.

Lemma filtered_never_unfinished (w : world) :
  filtered_base_yylex w <> Unfinished.
Proof.
  unfold filtered_base_yylex, bind.
  destruct (get_next_token w) as [k0 w0 | |] eqn:Hg; try discriminate.
  - rewrite lookahead_switch_cases.
    destruct (is_trigger k0); [| discriminate].
    unfold base_yylex.
    destruct (scanbuf w0) as [| [t |] rest]; try discriminate;
      match goal with
      | |- context [merge_of ?a ?b] => destruct (merge_of a b); discriminate
      end.
  - unfold get_next_token, bind, gets, modify, ret, base_yylex in Hg.
    destruct (have_lookahead w); [discriminate |].
    destruct (scanbuf w) as [| [t |] rest]; discriminate.
Qed.

Lemma assign_parsetree_normal (t : option (list Node)) (w : world) :
  exists w', assign_parsetree t w = Normal tt w' /\
             pending_weight w' = pending_weight w.
Proof.
  destruct t; simpl; eexists; split; reflexivity.
Qed.

Lemma finish_parse_never_unfinished (f : gfinal) (w : world) :
  finish_parse f w <> Unfinished.
Proof. destruct f; discriminate. Qed.

Lemma yyparse_loop_finishes (fuel : nat) :
  is_trigger YYEOF = false ->
  forall (g : gstate) (w : world),
    (pending_weight w < fuel)%nat ->
    yyparse_loop fuel g w <> Unfinished.
Proof.
  intros Heof. induction fuel as [| fuel IH]; intros g w Hw; [lia |].
  simpl. unfold bind at 1.
  destruct (filtered_base_yylex w) as [tok w1 | |] eqn:Hf;
    [| discriminate | exact (False_ind _ (filtered_never_unfinished w Hf))].
  destruct (Z.eqb_spec tok YYEOF) as [e | n].
  - unfold bind.
    destruct (assign_parsetree_normal (fst (geof g)) w1) as (w2 & -> & _).
    apply finish_parse_never_unfinished.
  - pose proof (filter_weight w w1 tok Heof Hf n) as Hlt.
    unfold bind, gets.
    destruct (assign_parsetree_normal
                (fst (gstep g tok (base_yylval w1) (base_yylloc w1))) w1)
      as (w2 & -> & Hw2).
    destruct (snd (gstep g tok (base_yylval w1) (base_yylloc w1))) as [g' | f].
    + apply IH. lia.
    + apply finish_parse_never_unfinished.
Qed.

(** The bound [base_yyparse] runs its loop with is enough. *)
Lemma base_yyparse_finishes (w : world) :
  bison_numbering -> base_yyparse w <> Unfinished.
Proof.
  intros Hnum. unfold base_yyparse.
  apply yyparse_loop_finishes.
  - token_facts Hnum. apply is_trigger_false. lia.
  - unfold parse_fuel, pending_weight.
    destruct (have_lookahead w); [destruct (lookahead_token w =? YYEOF) |];
      lia.
Qed.

(** ** What the filter and the engine leave alone *)

Lemma holds_after_impl {A : Type} (P Q : world -> Prop)
    (o : outcome world A) :
  (forall w, P w -> Q w) -> holds_after P o -> holds_after Q o.
Proof. intros HPQ. destruct o; simpl; auto. Qed.

Lemma same_arena_trans (w1 w2 w3 : world) :
  same_arena w1 w2 -> same_arena w2 w3 -> same_arena w1 w3.
Proof. unfold same_arena. intros [-> ->] [-> ->]. auto. Qed.

Lemma keeps_ret {A : Type} (a : A) : keeps_arena (ret a : M world A).
Proof. intros w. simpl. split; reflexivity. Qed.

Lemma keeps_gets {A : Type} (f : world -> A) : keeps_arena (gets f).
Proof. intros w. simpl. split; reflexivity. Qed.

Lemma keeps_longjmp {A : Type} : keeps_arena (longjmp : M world A).
Proof. intros w. simpl. split; reflexivity. Qed.

Lemma keeps_modify (f : world -> world) :
  (forall w, same_arena w (f w)) -> keeps_arena (modify f).
Proof. intros Hf w. simpl. apply Hf. Qed.

Lemma keeps_bind {A B : Type} (m : M world A) (k : A -> M world B) :
  keeps_arena m -> (forall a, keeps_arena (k a)) -> keeps_arena (bind m k).
Proof.
  intros Hm Hk w. unfold bind. specialize (Hm w).
  destruct (m w) as [a w1 | w1 |]; simpl in *; auto.
  apply (holds_after_impl (same_arena w1)); [| apply Hk].
  intros w2. apply same_arena_trans. exact Hm.
Qed.

Ltac keeps_step :=
  first
    [ apply keeps_ret | apply keeps_gets | apply keeps_longjmp
    | apply keeps_modify; intros ?; split; reflexivity
    | apply keeps_bind; [| intros ?] ].

Lemma keeps_base_yylex : keeps_arena base_yylex.
Proof.
  intros w. unfold base_yylex.
  destruct (scanbuf w) as [| [t |] rest]; simpl; split; reflexivity.
Qed.

Lemma keeps_get_next_token : keeps_arena get_next_token.
Proof.
  unfold get_next_token. apply keeps_bind; [keeps_step |].
  intros [|]; [repeat keeps_step | apply keeps_base_yylex].
Qed.

Lemma keeps_save_lookahead (k : Z) (v : YYSTYPE) (l : YYLTYPE) :
  keeps_arena (save_lookahead k v l).
Proof. unfold save_lookahead. repeat keeps_step. Qed.

Lemma keeps_lookahead_switch (k : Z) : keeps_arena (lookahead_switch k).
Proof.
  unfold lookahead_switch.
  repeat match goal with
         | |- keeps_arena (if ?c then _ else _) => destruct c
         | |- keeps_arena base_yylex => apply keeps_base_yylex
         | |- keeps_arena (save_lookahead _ _ _) => apply keeps_save_lookahead
         | |- _ => keeps_step
         end.
Qed.

Lemma keeps_filtered_base_yylex : keeps_arena filtered_base_yylex.
Proof.
  unfold filtered_base_yylex. apply keeps_bind.
  - apply keeps_get_next_token.
  - apply keeps_lookahead_switch.
Qed.

Lemma keeps_assign_parsetree (t : option (list Node)) :
  keeps_arena (assign_parsetree t).
Proof. destruct t; simpl; keeps_step. Qed.

Lemma keeps_finish_parse (f : gfinal) : keeps_arena (finish_parse f).
Proof. destruct f; simpl; keeps_step. Qed.

Lemma keeps_yyparse_loop (fuel : nat) :
  forall g : gstate, keeps_arena (yyparse_loop fuel g).
Proof.
  induction fuel as [| fuel IH]; intros g; simpl.
  - intros w. exact I.
  - apply keeps_bind; [apply keeps_filtered_base_yylex |].
    intros tok. destruct (tok =? YYEOF).
    + apply keeps_bind;
        [apply keeps_assign_parsetree | intros; apply keeps_finish_parse].
    + apply keeps_bind; [keeps_step | intros v].
      apply keeps_bind; [keeps_step | intros l].
      apply keeps_bind; [apply keeps_assign_parsetree | intros _].
      destruct (snd (gstep g tok v l)); [apply IH | apply keeps_finish_parse].
Qed.

Lemma keeps_base_yyparse : keeps_arena base_yyparse.
Proof. intros w. unfold base_yyparse. apply keeps_yyparse_loop. Qed.

(** ** The driver *)

Lemma raw_parser_prologue_eq (str : string) (w : world) :
  raw_parser_prologue str w = Normal tt (after_prologue str w).
Proof.
  unfold raw_parser_prologue, after_prologue, bind, gets, modify, ret,
    pool_memory_create, scanner_init, parser_init.
  destruct (pool_memory w); reflexivity.
Qed.

Lemma raw_parser_cases (str : string) (w : world) :
  raw_parser str w =
  match base_yyparse (after_prologue str w) with
  | Normal r w1 =>
      Normal (if negb (r =? 0) then NIL else parsetree w1) (after_finish w1)
  | Longjmp w1 => Normal NIL (after_finish w1)
  | Unfinished => Unfinished
  end.
Proof.
  unfold raw_parser, bind at 1. rewrite raw_parser_prologue_eq.
  unfold raw_parser_body, setjmp, bind, scanner_finish, modify, gets, ret.
  destruct (base_yyparse (after_prologue str w)) as [r w1 | w1 |];
    try reflexivity.
  destruct (negb (r =? 0)); reflexivity.
Qed.

Lemma calls_since_app (w w' : world) (evs : list event) :
  calls w' = calls w ++ evs -> calls_since w w' = evs.
Proof.
  unfold calls_since. intros ->.
  rewrite skipn_app, skipn_all, Nat.sub_diag. reflexivity.
Qed.

Lemma after_prologue_arena (str : string) (w : world) :
  pool_memory (after_prologue str w) = arena_after w /\
  calls (after_prologue str w) =
  calls w ++ arena_events w ++ [EvScannerInit str; EvParserInit].
Proof.
  unfold after_prologue, arena_after, arena_events.
  destruct (pool_memory w) eqn:Hpm; simpl; rewrite <- ?app_assoc; simpl; auto.
Qed.

(** Every call of [raw_parser] returns, and this is what it recorded. *)
Lemma raw_parser_trace (str : string) (w : world) :
  bison_numbering ->
  exists (r : list Node) (w' : world),
    raw_parser str w = Normal r w' /\
    pool_memory w' = arena_after w /\
    calls w' =
    calls w ++ arena_events w ++
    [EvScannerInit str; EvParserInit; EvScannerFinish].
Proof.
  intros Hnum. rewrite raw_parser_cases.
  pose proof (base_yyparse_finishes (after_prologue str w) Hnum) as Hfin.
  pose proof (keeps_base_yyparse (after_prologue str w)) as Hkeep.
  destruct (after_prologue_arena str w) as [Hpm Hcalls].
  destruct (base_yyparse (after_prologue str w)) as [r w1 | w1 |];
    [| | contradiction];
    destruct Hkeep as [Hk1 Hk2]; eexists; eexists;
    (split; [reflexivity |]);
    (split; [simpl; congruence |]);
    simpl; rewrite Hk2, Hcalls, <- !app_assoc; reflexivity.
Qed.

(** C6: a lexical error and a syntax error, which both leave the grammar
    engine by [longjmp], and a nonzero return of [base_yyparse] all end the
    same way: [raw_parser] returns [NIL], and since parsing began the one
    collaborator call it made is [scanner_finish]. *)
Theorem raw_parser_failures_collapse :
  forall (str : string) (w w1 : world),
    (base_yyparse (after_prologue str w) = Longjmp w1 \/
     exists r : Z,
       r <> 0 /\ base_yyparse (after_prologue str w) = Normal r w1) ->
    raw_parser str w = Normal NIL (after_finish w1) /\
    calls_since (after_prologue str w) (after_finish w1) = [EvScannerFinish].
Proof.
  intros str w w1 Hfail.
  pose proof (keeps_base_yyparse (after_prologue str w)) as Hkeep.
  rewrite raw_parser_cases.
  destruct Hfail as [Hj | (r & Hr & Hn)].
  - rewrite Hj in *. destruct Hkeep as [_ Hc].
    split; [reflexivity |].
    apply calls_since_app. simpl. rewrite Hc. reflexivity.
  - rewrite Hn in *. destruct Hkeep as [_ Hc].
    split.
    + destruct (Z.eqb_spec r 0); [contradiction | reflexivity].
    + apply calls_since_app. simpl. rewrite Hc. reflexivity.
Qed.

Lemma arena_events_create (w : world) :
  filter is_pool_create (arena_events w) = arena_events w /\
  filter is_pool_delete (arena_events w) = [].
Proof. unfold arena_events. destruct (pool_memory w); auto. Qed.

Lemma raw_parser_arena (str : string) (w : world) :
  bison_numbering ->
  exists (r : list Node) (w' : world),
    raw_parser str w = Normal r w' /\
    pool_memory w' = arena_after w /\
    filter is_pool_create (calls_since w w') = arena_events w /\
    filter is_pool_delete (calls_since w w') = [].
Proof.
  intros Hnum.
  destruct (raw_parser_trace str w Hnum) as (r & w' & Hr & Hpm & Hc).
  exists r, w'.
  destruct (arena_events_create w) as [Hcr Hdel].
  rewrite (calls_since_app w w' _ Hc), !filter_app, Hcr, Hdel.
  simpl. rewrite app_nil_r. auto.
Qed.

(** C9: [raw_parser] creates the arena exactly when [pool_memory] is NULL
    and calls [pool_memory_delete] on no path; a further call finds the
    handle it left and creates nothing; the call that releases the arena
    is the one [free_parser] makes. *)
Theorem raw_parser_keeps_arena :
  bison_numbering ->
  forall (str : string) (w : world),
  exists (r : list Node) (w' : world),
    raw_parser str w = Normal r w' /\
    pool_memory w' =
      match pool_memory w with
      | None => Some (S (List.length (calls w)))
      | Some h => Some h
      end /\
    filter is_pool_create (calls_since w w') =
      match pool_memory w with
      | None => [EvPoolCreate (S (List.length (calls w)))]
      | Some _ => []
      end /\
    filter is_pool_delete (calls_since w w') = [] /\
    (forall str2 : string,
        exists (r2 : list Node) (w2 : world),
          raw_parser str2 w' = Normal r2 w2 /\
          pool_memory w2 = pool_memory w' /\
          filter is_pool_create (calls_since w' w2) = [] /\
          filter is_pool_delete (calls_since w' w2) = []) /\
    (exists w3 : world,
        free_parser w' = Normal tt w3 /\
        calls_since w' w3 = [EvPoolDelete (pool_memory w') 1]).
Proof.
  intros Hnum str w.
  destruct (raw_parser_arena str w Hnum) as (r & w' & Hr & Hpm & Hcr & Hdel).
  exists r, w'.
  split; [exact Hr |].
  split; [exact Hpm |].
  split; [exact Hcr |].
  split; [exact Hdel |].
  split.
  - intros str2.
    destruct (raw_parser_arena str2 w' Hnum)
      as (r2 & w2 & Hr2 & Hpm2 & Hcr2 & Hdel2).
    exists r2, w2.
    assert (Hsome : exists h, pool_memory w' = Some h).
    { rewrite Hpm. unfold arena_after. destruct (pool_memory w); eauto. }
    destruct Hsome as [h Hh].
    unfold arena_after, arena_events in *. rewrite Hh in *. auto.
  - eexists. split; [reflexivity |].
    apply calls_since_app. reflexivity.
Qed.

(** C10: [free_parser] hands [pool_memory] to [pool_memory_delete] and
    leaves the variable as it is; when it held a handle, a [raw_parser]
    call made afterwards finds that handle and does not create an arena. *)
Theorem free_parser_keeps_handle :
  bison_numbering ->
  forall w : world,
  exists w1 : world,
    free_parser w = Normal tt w1 /\
    pool_memory w1 = pool_memory w /\
    calls_since w w1 = [EvPoolDelete (pool_memory w) 1] /\
    (forall (h : handle) (str : string),
        pool_memory w = Some h ->
        exists (r : list Node) (w2 : world),
          raw_parser str w1 = Normal r w2 /\
          pool_memory w2 = Some h /\
          filter is_pool_create (calls_since w1 w2) = []).
Proof.
  intros Hnum w.
  exists (log_call (EvPoolDelete (pool_memory w) 1) w).
  split; [reflexivity |].
  split; [reflexivity |].
  split; [apply calls_since_app; reflexivity |].
  intros h str Hh.
  destruct (raw_parser_arena str (log_call (EvPoolDelete (pool_memory w) 1) w)
              Hnum) as (r & w2 & Hr & Hpm & Hcr & _).
  exists r, w2.
  unfold arena_after, arena_events in *. simpl in Hpm, Hcr.
  rewrite Hh in *. auto.
Qed.

(** ** A parse depends on the input only *)

(** From two worlds with the same scanner input, parse tree result and
    slot content the filter goes the same way; the values it leaves for
    the grammar agree unless it reports end of input. *)
Lemma filtered_same_session (a b : world) :
  is_trigger YYEOF = false ->
  same_session a b ->
  match filtered_base_yylex a, filtered_base_yylex b with
  | Normal k a', Normal k' b' =>
      k = k' /\ same_session a' b' /\
      (k <> YYEOF ->
       base_yylval a' = base_yylval b' /\ base_yylloc a' = base_yylloc b')
  | Longjmp _, Longjmp _ => True
  | _, _ => False
  end.
Proof.
  intros Heof (Hs & Hp & Hsl).
  destruct a as [pma pta lta hla lva lla bva bla sba csa].
  destruct b as [pmb ptb ltb hlb lvb llb bvb blb sbb csb].
  unfold slot in Hsl. simpl in Hs, Hp, Hsl. subst sbb ptb.
  unfold filtered_base_yylex, bind at 1 3.
  unfold get_next_token, bind, gets, modify, ret, base_yylex. simpl.
  destruct hla, hlb; try discriminate;
    [injection Hsl as -> -> -> | destruct sba as [| [t |] rest]; simpl; auto];
    rewrite !lookahead_switch_cases; unfold base_yylex; simpl;
    rewrite ?Heof;
    repeat match goal with
           | |- context [is_trigger ?k] => destruct (is_trigger k)
           | |- context [match ?l with [] => _ | _ :: _ => _ end] =>
               destruct l as [| [? |] ?]; simpl
           | |- context [merge_of ?x ?y] => destruct (merge_of x y)
           end;
    unfold same_session, slot; simpl; auto;
    intuition congruence.
Qed.

Lemma assign_parsetree_same_session (t : option (list Node)) (a b : world) :
  same_session a b ->
  exists a' b',
    assign_parsetree t a = Normal tt a' /\
    assign_parsetree t b = Normal tt b' /\
    same_session a' b'.
Proof.
  intros (Hs & Hp & Hsl). destruct t as [t' |]; simpl.
  - eexists; eexists. split; [reflexivity |]. split; [reflexivity |].
    unfold same_session, slot in *. simpl. auto.
  - exists a, b. unfold ret, same_session. auto.
Qed.

Lemma finish_parse_same_session (f : gfinal) (a b : world) :
  same_session a b ->
  same_outcome (finish_parse f a) (finish_parse f b).
Proof.
  intros (_ & Hp & _). destruct f; simpl; auto.
Qed.

Lemma yyparse_loop_same_session (fuel : nat) :
  is_trigger YYEOF = false ->
  forall (g : gstate) (a b : world),
    same_session a b ->
    same_outcome (yyparse_loop fuel g a) (yyparse_loop fuel g b).
Proof.
  intros Heof. induction fuel as [| fuel IH]; intros g a b Hab; simpl; [exact I |].
  rewrite (bind_cases filtered_base_yylex _ a),
    (bind_cases filtered_base_yylex _ b).
  pose proof (filtered_same_session a b Heof Hab) as Hf.
  destruct (filtered_base_yylex a) as [k a1 | a1 |];
    destruct (filtered_base_yylex b) as [k' b1 | b1 |];
    try contradiction; [| exact I].
  destruct Hf as (<- & Hab1 & Hpay).
  destruct (Z.eqb_spec k YYEOF) as [e | n].
  - unfold bind.
    destruct (assign_parsetree_same_session (fst (geof g)) a1 b1 Hab1)
      as (a2 & b2 & -> & -> & Hab2).
    apply finish_parse_same_session. exact Hab2.
  - destruct (Hpay n) as [Hv Hl].
    unfold bind, gets. rewrite <- Hv, <- Hl.
    destruct (assign_parsetree_same_session
                (fst (gstep g k (base_yylval a1) (base_yylloc a1))) a1 b1 Hab1)
      as (a2 & b2 & -> & -> & Hab2).
    destruct (snd (gstep g k (base_yylval a1) (base_yylloc a1))) as [g' | f].
    + apply IH. exact Hab2.
    + apply finish_parse_same_session. exact Hab2.
Qed.

Lemma base_yyparse_same_session (a b : world) :
  is_trigger YYEOF = false ->
  same_session a b ->
  same_outcome (base_yyparse a) (base_yyparse b).
Proof.
  intros Heof Hab. unfold base_yyparse, parse_fuel.
  destruct Hab as (Hs & Hp & Hsl). rewrite Hs.
  apply yyparse_loop_same_session; [exact Heof |].
  unfold same_session. auto.
Qed.

Lemma after_prologue_same_session (str : string) (w v : world) :
  same_session (after_prologue str w) (after_prologue str v).
Proof.
  unfold same_session, slot, after_prologue.
  destruct (pool_memory w), (pool_memory v); simpl; auto.
Qed.

(** What [raw_parser] returns is decided by its argument. *)
Lemma raw_parser_result_of_input (str : string) (w v : world) :
  bison_numbering ->
  exists (r : list Node) (w' v' : world),
    raw_parser str w = Normal r w' /\ raw_parser str v = Normal r v'.
Proof.
  intros Hnum.
  assert (Heof : is_trigger YYEOF = false).
  { token_facts Hnum. apply is_trigger_false. lia. }
  pose proof (base_yyparse_same_session _ _ Heof
                (after_prologue_same_session str w v)) as Hsame.
  pose proof (base_yyparse_finishes (after_prologue str w) Hnum) as Hfw.
  rewrite !raw_parser_cases.
  destruct (base_yyparse (after_prologue str w)) as [r1 w1 | w1 |];
    destruct (base_yyparse (after_prologue str v)) as [r2 v1 | v1 |];
    simpl in Hsame; try contradiction.
  - destruct Hsame as [<- Hp]. rewrite Hp. eauto.
  - eauto.
Qed.

(** C7: [raw_parser] runs the grammar engine in the world its first lines
    leave: the result cleared to [NIL], the slot empty, the scanner over
    its argument; what it returns is read off that run.  From any two
    worlds that run goes the same way, so the result of a call is the same
    whatever world it starts in: the second of two calls in a row returns
    what it would return from any other world [v], whether the first call
    failed or not. *)
Theorem raw_parser_sessions_independent :
  bison_numbering ->
  forall (str1 str2 : string) (w v : world),
    (forall (str : string) (u : world),
        raw_parser_prologue str u = Normal tt (after_prologue str u) /\
        parsetree (after_prologue str u) = NIL /\
        slot (after_prologue str u) = [] /\
        scanbuf (after_prologue str u) = scan str /\
        raw_parser str u =
          match base_yyparse (after_prologue str u) with
          | Normal yyresult u1 =>
              Normal (if negb (yyresult =? 0) then NIL else parsetree u1)
                     (after_finish u1)
          | Longjmp u1 => Normal NIL (after_finish u1)
          | Unfinished => Unfinished
          end) /\
    same_outcome (base_yyparse (after_prologue str2 w))
                 (base_yyparse (after_prologue str2 v)) /\
    exists (r1 r2 : list Node) (w1 w2 v2 : world),
      raw_parser str1 w = Normal r1 w1 /\
      raw_parser str2 w1 = Normal r2 w2 /\
      raw_parser str2 v = Normal r2 v2.
Proof.
  intros Hnum str1 str2 w v. split; [| split].
  - intros str u.
    split; [apply raw_parser_prologue_eq |].
    split; [unfold after_prologue; destruct (pool_memory u); reflexivity |].
    split; [unfold after_prologue, slot; destruct (pool_memory u);
            reflexivity |].
    split; [unfold after_prologue; destruct (pool_memory u); reflexivity |].
    apply raw_parser_cases.
  - apply base_yyparse_same_session.
    + token_facts Hnum. apply is_trigger_false. lia.
    + apply after_prologue_same_session.
  - destruct (raw_parser_trace str1 w Hnum) as (r1 & w1 & Hr1 & _).
    destruct (raw_parser_result_of_input str2 w1 v Hnum)
      as (r2 & w2 & v2 & Hr2 & Hv2).
    exists r1, r2, w1, w2, v2. auto.
Qed.

(** * Further properties of parser.c *)

(** ** One call of the filter, by what is pending *)

Lemma merge_of_not_trigger (k k2 : Z) :
  is_trigger k = false -> merge_of k k2 = None.
Proof.
  intros H. apply is_trigger_false in H. destruct H.
  unfold merge_of. decide_tests. reflexivity.
Qed.

Lemma merge_of_eof (k : Z) :
  bison_numbering -> merge_of k YYEOF = None.
Proof.
  intros Hnum.
  pose proof (gram_tokens_above 1 Hnum ltac:(simpl; lia)) as H1.
  pose proof (gram_tokens_above 2 Hnum ltac:(simpl; lia)) as H2.
  pose proof (gram_tokens_above 6 Hnum ltac:(simpl; lia)) as H6.
  pose proof (gram_tokens_above 7 Hnum ltac:(simpl; lia)) as H7.
  pose proof (gram_tokens_above 8 Hnum ltac:(simpl; lia)) as H8.
  simpl nth in *. unfold merge_of, YYEOF.
  destruct (k =? NULLS_P); [| destruct (k =? WITH)];
    decide_tests; reflexivity.
Qed.

Lemma pending_after_token (t : token) (rest : list scan_item) (w : world) :
  pending (after_token t rest w) = rest.
Proof. reflexivity. Qed.

(** A call with two tokens pending. *)
Lemma filtered_two (w : world) (t1 t2 : token) (rest : list scan_item) :
  pending w = Tok t1 :: Tok t2 :: rest ->
  filtered_base_yylex w =
  if is_trigger (tok_kind t1) then
    match merge_of (tok_kind t1) (tok_kind t2) with
    | Some m => Normal m (after_token t2 rest w)
    | None => Normal (tok_kind t1) (after_buffer t1 t2 rest w)
    end
  else Normal (tok_kind t1) (after_token t1 (Tok t2 :: rest) w).
Proof.
  intros Hp.
  rewrite (filtered_pending w t1 (Tok t2 :: rest) Hp), lookahead_switch_cases.
  destruct (is_trigger (tok_kind t1)); [| reflexivity].
  unfold base_yylex. simpl.
  destruct (merge_of (tok_kind t1) (tok_kind t2)); [reflexivity |].
  destruct t1, t2; reflexivity.
Qed.

(** A call with one token pending and nothing behind it. *)
Lemma filtered_last (w : world) (t1 : token) :
  pending w = [Tok t1] ->
  filtered_base_yylex w =
  if is_trigger (tok_kind t1) then
    match merge_of (tok_kind t1) YYEOF with
    | Some m => Normal m (after_token t1 [] w)
    | None =>
        Normal (tok_kind t1)
          (after_buffer t1 (mkToken YYEOF (tok_val t1) (tok_loc t1)) [] w)
    end
  else Normal (tok_kind t1) (after_token t1 [] w).
Proof.
  intros Hp.
  rewrite (filtered_pending w t1 [] Hp), lookahead_switch_cases.
  destruct (is_trigger (tok_kind t1)); [| reflexivity].
  unfold base_yylex. simpl.
  destruct (merge_of (tok_kind t1) YYEOF); [reflexivity |].
  destruct t1; reflexivity.
Qed.

(** X1: a token that is neither NULLS nor WITH is returned as it is, with
    its value and location, whether it comes from the slot or from the
    scanner; the slot is empty afterwards, nothing beyond this token is
    taken, and a token served from the slot costs no call of the
    scanner. *)
Theorem non_trigger_passes_through :
  forall (w : world) (t : token) (rest : list scan_item),
    pending w = Tok t :: rest ->
    is_trigger (tok_kind t) = false ->
    exists w',
      filtered_base_yylex w = Normal (tok_kind t) w' /\
      output (tok_kind t) w' = t /\
      slot w' = [] /\
      pending w' = rest /\
      (have_lookahead w = true -> scanbuf w' = scanbuf w).
Proof.
  intros w t rest Hp Ht.
  exists (after_token t rest w).
  split; [apply filtered_plain; assumption |].
  split; [apply output_eta |].
  split; [reflexivity |].
  split; [reflexivity |].
  intros Hl. unfold pending, slot in Hp. rewrite Hl in Hp.
  simpl in Hp. injection Hp as _ Hrest. simpl. symmetry. exact Hrest.
Qed.

(** X3: a lexeme the scanner cannot tokenize, right behind the next token:
    if that token is NULLS or WITH, the call that would hand it out jumps
    out instead, because it looks ahead first; the token is gone and the
    slot is empty.  If it is any other token, it is handed out, and the
    call after it jumps out.  With the bad lexeme next, the call jumps out
    at once. *)
Theorem lexical_error_in_lookahead :
  forall (w : world) (t : token) (rest : list scan_item),
    pending w = Tok t :: LexError :: rest ->
    (is_trigger (tok_kind t) = true ->
     filtered_base_yylex w = Longjmp (after_token t rest w)) /\
    (is_trigger (tok_kind t) = false ->
     filtered_base_yylex w =
       Normal (tok_kind t) (after_token t (LexError :: rest) w) /\
     filtered_base_yylex (after_token t (LexError :: rest) w) =
       Longjmp (after_token t rest w)).
Proof.
  intros w t rest Hp.
  rewrite (filtered_pending w t (LexError :: rest) Hp), lookahead_switch_cases.
  split; intros Ht; rewrite Ht.
  - reflexivity.
  - split; [reflexivity |].
    unfold filtered_base_yylex. rewrite bind_cases. reflexivity.
Qed.

(** ** The filter over a whole stream *)

Lemma fuse_two (t1 t2 : token) (rest : list token) :
  fuse (t1 :: t2 :: rest) =
  match merge_of (tok_kind t1) (tok_kind t2) with
  | Some m => mkToken m (tok_val t2) (tok_loc t2) :: fuse rest
  | None => t1 :: fuse (t2 :: rest)
  end.
Proof. reflexivity. Qed.

Lemma fuse_nil (l : list token) : fuse l = [] -> l = [].
Proof.
  destruct l as [| t1 [| t2 rest]]; [reflexivity | discriminate |].
  rewrite fuse_two. destruct (merge_of (tok_kind t1) (tok_kind t2));
    discriminate.
Qed.

Lemma pending_nil (w : world) : pending w = [] -> scanbuf w = [].
Proof.
  unfold pending. intros H. apply app_eq_nil in H. tauto.
Qed.

Lemma filter_run_fused (n : nat) :
  bison_numbering ->
  forall (l : list token) (w : world),
    pending w = map Tok l ->
    (n <= List.length (fuse l))%nat ->
    exists w',
      pull filtered_base_yylex n w = Normal (firstn n (fuse l)) w' /\
      (n = List.length (fuse l) -> scanbuf w' = []).
Proof.
  intros Hnum. induction n as [| n IH]; intros l w Hp Hn.
  - exists w. split; [reflexivity |].
    intros H0. symmetry in H0. apply length_zero_iff_nil, fuse_nil in H0.
    subst l. apply pending_nil. exact Hp.
  - destruct l as [| t1 [| t2 rest]]; [simpl in Hn; lia | |].
    + simpl in Hn. assert (n = 0)%nat by lia. subst n. simpl in Hp.
      pose proof (filtered_last w t1 Hp) as Hf.
      rewrite (merge_of_eof (tok_kind t1) Hnum) in Hf.
      destruct (is_trigger (tok_kind t1)).
      * eexists. split; [| intros _].
        -- rewrite (pull_one _ _ _ _ Hf), output_after_buffer. reflexivity.
        -- reflexivity.
      * eexists. split; [| intros _].
        -- rewrite (pull_one _ _ _ _ Hf), output_eta. reflexivity.
        -- reflexivity.
    + simpl in Hp. pose proof (filtered_two w t1 t2 (map Tok rest) Hp) as Hf.
      rewrite fuse_two in *.
      assert (Hrun :
        forall (out : token) (l1 : list token) (w1 : world) (k : Z),
          filtered_base_yylex w = Normal k w1 ->
          output k w1 = out ->
          pending w1 = map Tok l1 ->
          (S n <= List.length (out :: fuse l1))%nat ->
          exists w',
            pull filtered_base_yylex (S n) w =
              Normal (firstn (S n) (out :: fuse l1)) w' /\
            (S n = List.length (out :: fuse l1) -> scanbuf w' = [])).
      { intros out l1 w1 k Hk Hout Hp1 Hlen. simpl in Hlen.
        assert (Hle : (n <= List.length (fuse l1))%nat) by lia.
        destruct (IH l1 w1 Hp1 Hle) as (w' & Hpull & Hend).
        exists w'. split.
        - rewrite (pull_succ _ _ _ _ _ _ _ Hk Hpull), Hout. reflexivity.
        - simpl. intros H. apply Hend. lia. }
      destruct (is_trigger (tok_kind t1)) eqn:Ht.
      * destruct (merge_of (tok_kind t1) (tok_kind t2)) as [m |].
        -- apply (Hrun _ rest _ _ Hf); [reflexivity | reflexivity | exact Hn].
        -- apply (Hrun _ (t2 :: rest) _ _ Hf);
             [apply output_after_buffer | apply pending_after_buffer
             | exact Hn].
      * rewrite (merge_of_not_trigger _ _ Ht) in *.
        apply (Hrun _ (t2 :: rest) _ _ Hf);
          [apply output_eta | reflexivity | exact Hn].
Qed.

(** X2: over a stream of tokens the filter computes [fuse]: the outputs of
    the first [n] calls are the first [n] tokens of the fused stream, for
    every [n] up to its length, and when all of it has been handed out the
    scanner has nothing left.  So merging goes greedily from the left, and
    a token used up as a continuation never starts a merge itself. *)
Theorem filter_computes_fuse :
  bison_numbering ->
  forall (n : nat) (l : list token) (w : world),
    slot w = [] ->
    scanbuf w = map Tok l ->
    (n <= List.length (fuse l))%nat ->
    exists w',
      pull filtered_base_yylex n w = Normal (firstn n (fuse l)) w' /\
      (n = List.length (fuse l) -> scanbuf w' = []).
Proof.
  intros Hnum n l w Hs Hl Hn.
  apply (filter_run_fused n Hnum l w); [| exact Hn].
  unfold pending. rewrite Hs. exact Hl.
Qed.

(** ** What a call of the filter leaves behind *)

Lemma filtered_keeps_parsetree (w : world) :
  holds_after (fun w' => parsetree w' = parsetree w) (filtered_base_yylex w).
Proof.
  unfold filtered_base_yylex. rewrite bind_cases.
  unfold get_next_token, bind, gets, modify, ret, base_yylex.
  destruct (have_lookahead w);
    [| destruct (scanbuf w) as [| [t |] rest]; [| | reflexivity]];
    rewrite lookahead_switch_cases;
    match goal with
    | |- context [is_trigger ?k] => destruct (is_trigger k)
    end; try reflexivity;
    unfold base_yylex; simpl;
    match goal with
    | |- context [match ?l with [] => _ | _ :: _ => _ end] =>
        destruct l as [| [? |] ?]
    end; try reflexivity;
    match goal with
    | |- context [merge_of ?x ?y] => destruct (merge_of x y)
    end; reflexivity.
Qed.

(** X4: a call of the filter, however it ends, leaves the parse tree
    result, [pool_memory] and the record of collaborator calls as they
    were. *)
Theorem filter_leaves_driver_state :
  forall w : world,
    holds_after
      (fun w' =>
         parsetree w' = parsetree w /\
         pool_memory w' = pool_memory w /\
         calls w' = calls w)
      (filtered_base_yylex w).
Proof.
  intros w.
  pose proof (filtered_keeps_parsetree w) as Hp.
  pose proof (keeps_filtered_base_yylex w) as Ha.
  destruct (filtered_base_yylex w) as [k w' | w' |]; simpl in *;
    try destruct Ha; auto.
Qed.

(** X5: when a call returns with a token in the slot, the token it
    returned is NULLS or WITH, and the inner switch has no merged kind for
    it and the buffered token. *)
Theorem full_slot_follows_trigger :
  forall (w w' : world) (k : Z),
    filtered_base_yylex w = Normal k w' ->
    have_lookahead w' = true ->
    is_trigger k = true /\ merge_of k (lookahead_token w') = None.
Proof.
  intros w w' k H Hl.
  unfold filtered_base_yylex in H. rewrite bind_cases in H.
  destruct (get_next_token w) as [k0 w0 | |] eqn:Hg; try discriminate.
  assert (Hl0 : have_lookahead w0 = false).
  { unfold get_next_token, bind, gets, modify, ret, base_yylex in Hg.
    destruct (have_lookahead w) eqn:Hlw.
    - inversion Hg; reflexivity.
    - destruct (scanbuf w) as [| [t |] rest]; inversion Hg; subst; simpl;
        auto. }
  rewrite lookahead_switch_cases in H.
  destruct (is_trigger k0) eqn:Ht.
  - destruct (base_yylex w0) as [k2 w2 | |] eqn:Hb; try discriminate.
    assert (Hl2 : have_lookahead w2 = false).
    { unfold base_yylex in Hb.
      destruct (scanbuf w0) as [| [t |] rest]; inversion Hb; subst; simpl;
        auto. }
    destruct (merge_of k0 k2) as [m |] eqn:Hm; inversion H; subst.
    + congruence.
    + simpl. auto.
  - inversion H; subst. congruence.
Qed.

(** ** The driver, on every path *)

(** X6: every call of [raw_parser] returns to its caller and makes the
    same calls in the same order: [pool_memory_create] if there was no
    arena, [scanner_init] on its argument, [parser_init], and, whether the
    parse succeeded or not, [scanner_finish] once, last. *)
Theorem raw_parser_call_sequence :
  bison_numbering ->
  forall (str : string) (w : world),
  exists (r : list Node) (w' : world),
    raw_parser str w = Normal r w' /\
    calls_since w w' =
      match pool_memory w with
      | None => [EvPoolCreate (S (List.length (calls w)))]
      | Some _ => []
      end ++ [EvScannerInit str; EvParserInit; EvScannerFinish].
Proof.
  intros Hnum str w.
  destruct (raw_parser_trace str w Hnum) as (r & w' & Hr & _ & Hc).
  exists r, w'. split; [exact Hr |].
  apply calls_since_app. exact Hc.
Qed.

Lemma assign_none_keeps_parsetree (w : world) :
  assign_parsetree None w = Normal tt w.
Proof. reflexivity. Qed.

Lemma finish_parse_keeps_parsetree (f : gfinal) (w : world) :
  holds_after (fun w' => parsetree w' = parsetree w) (finish_parse f w).
Proof. destruct f; reflexivity. Qed.

Lemma yyparse_loop_keeps_parsetree (fuel : nat) :
  never_assigns E ->
  forall (g : gstate) (w : world),
    holds_after (fun w' => parsetree w' = parsetree w) (yyparse_loop fuel g w).
Proof.
  intros [Hstep Heof]. induction fuel as [| fuel IH]; intros g w; simpl;
    [exact I |].
  rewrite bind_cases.
  pose proof (filtered_keeps_parsetree w) as Hf.
  destruct (filtered_base_yylex w) as [tok w1 | w1 |]; simpl in Hf;
    [| exact Hf | exact I].
  destruct (tok =? YYEOF).
  - rewrite bind_cases, Heof, assign_none_keeps_parsetree.
    rewrite <- Hf. apply finish_parse_keeps_parsetree.
  - unfold bind at 1 2, gets. rewrite bind_cases, Hstep.
    rewrite assign_none_keeps_parsetree.
    destruct (snd (gstep g tok (base_yylval w1) (base_yylloc w1))).
    + rewrite <- Hf. apply IH.
    + rewrite <- Hf. apply finish_parse_keeps_parsetree.
Qed.

(** X7: with a grammar that never sets the result, [raw_parser] returns
    [NIL], whatever an earlier parse has left in [parsetree]: line 53
    clears it "in case grammar forgets to set it". *)
Theorem raw_parser_result_cleared :
  bison_numbering ->
  never_assigns E ->
  forall (str : string) (w : world),
  exists w' : world, raw_parser str w = Normal NIL w'.
Proof.
  intros Hnum Hnever str w.
  rewrite raw_parser_cases.
  pose proof (base_yyparse_finishes (after_prologue str w) Hnum) as Hfin.
  pose proof (yyparse_loop_keeps_parsetree
                (parse_fuel (after_prologue str w)) Hnever ginit
                (after_prologue str w)) as Hkeep.
  fold (base_yyparse (after_prologue str w)) in Hkeep.
  assert (Hnil : parsetree (after_prologue str w) = NIL).
  { unfold after_prologue. destruct (pool_memory w); reflexivity. }
  destruct (base_yyparse (after_prologue str w)) as [r w1 | w1 |];
    [| | contradiction]; unfold holds_after in Hkeep.
  - rewrite Hnil in Hkeep. rewrite Hkeep. destruct (negb (r =? 0)); eauto.
  - eauto.
Qed.

(** X8: a result of [raw_parser] other than [NIL] means that
    [base_yyparse] returned 0; the result is then what the grammar left in
    [parsetree], and the global still holds it. *)
Theorem raw_parser_result_means_accept :
  forall (str : string) (w w' : world) (r : list Node),
    raw_parser str w = Normal r w' ->
    r <> NIL ->
    exists w1 : world,
      base_yyparse (after_prologue str w) = Normal 0 w1 /\
      w' = after_finish w1 /\
      r = parsetree w1 /\
      parsetree w' = r.
Proof.
  intros str w w' r H Hr.
  rewrite raw_parser_cases in H.
  destruct (base_yyparse (after_prologue str w)) as [y w1 | w1 |];
    try discriminate.
  - destruct (Z.eqb_spec y 0) as [-> | n]; simpl in H;
      inversion H; subst; [| contradiction].
    exists w1. auto.
  - inversion H; subst. contradiction.
Qed.

(** ** The slot, call by call *)

(** C4: the slot never holds more than one token.  A call of
    [filtered_base_yylex] that leaves a token in the slot has emptied the
    slot first (by taking its current token), has then called the scanner
    exactly once, and the slot holds exactly what that one call delivered,
    while the output is the current token.  With two tokens pending, a call
    takes one token or a registered pair off the front and leaves all the
    rest pending, in order: nothing is lost or overwritten.  A token taken
    out of the slot is treated exactly as if the scanner had just delivered
    it: when it is a trigger and its continuation follows, the two are
    merged; on WITH WITH CHECK the buffered second WITH is merged with
    CHECK. *)
Theorem lookahead_slot_single :
  bison_numbering ->
  (forall w : world, (List.length (slot w) <= 1)%nat) /\
  (forall (w w1 : world) (k : Z),
      get_next_token w = Normal k w1 -> slot w1 = []) /\
  (forall (w w' : world) (k : Z),
      filtered_base_yylex w = Normal k w' ->
      have_lookahead w' = true ->
      exists (w0 w2 : world) (k2 : Z),
        get_next_token w = Normal k w0 /\
        slot w0 = [] /\
        base_yylex w0 = Normal k2 w2 /\
        slot w' = [output k2 w2] /\
        scanbuf w' = scanbuf w2 /\
        output k w' = output k w0) /\
  (forall (w : world) (t1 t2 : token) (rest : list scan_item),
      pending w = Tok t1 :: Tok t2 :: rest ->
      exists (k : Z) (w' : world) (chunk : list token),
        filtered_base_yylex w = Normal k w' /\
        covers (output k w') chunk /\
        map Tok chunk ++ pending w' = pending w) /\
  (forall (w : world) (t : token),
      slot w = [t] ->
      filtered_base_yylex w =
      filtered_base_yylex
        (set_scanbuf (Tok t :: scanbuf w) (set_have_lookahead false w))) /\
  (forall (w : world) (t1 t2 t3 : token) (rest : list scan_item) (m : Z),
      pending w = Tok t1 :: Tok t2 :: Tok t3 :: rest ->
      is_trigger (tok_kind t1) = true ->
      merge_of (tok_kind t1) (tok_kind t2) = None ->
      merge_of (tok_kind t2) (tok_kind t3) = Some m ->
      exists w1 w2,
        filtered_base_yylex w = Normal (tok_kind t1) w1 /\
        output (tok_kind t1) w1 = t1 /\
        slot w1 = [t2] /\
        filtered_base_yylex w1 = Normal m w2 /\
        output m w2 = mkToken m (tok_val t3) (tok_loc t3) /\
        slot w2 = [] /\
        scanbuf w2 = rest) /\
  (forall (w : world) (t1 t2 t3 : token) (rest : list scan_item),
      pending w = Tok t1 :: Tok t2 :: Tok t3 :: rest ->
      tok_kind t1 = WITH -> tok_kind t2 = WITH -> tok_kind t3 = CHECK ->
      exists w1 w2,
        filtered_base_yylex w = Normal WITH w1 /\
        output WITH w1 = t1 /\
        slot w1 = [t2] /\
        filtered_base_yylex w1 = Normal WITH_CHECK w2 /\
        slot w2 = [] /\
        scanbuf w2 = rest).
Proof.
  intros Hnum.
  assert (Hnext : forall (w w1 : world) (k : Z),
             get_next_token w = Normal k w1 -> slot w1 = []).
  { intros w w1 k.
    unfold get_next_token, bind, gets, modify, ret, base_yylex, slot.
    destruct (have_lookahead w) eqn:Hl.
    + intros H. inversion H; subst. reflexivity.
    + destruct (scanbuf w) as [| [t |] rest]; intros H; inversion H; subst;
        simpl; rewrite ?Hl; reflexivity. }
  split; [| split; [exact Hnext | split; [| split; [| split; [| split]]]]].
  - intros w. unfold slot. destruct (have_lookahead w); simpl; lia.
  - intros w w' k H Hl.
    unfold filtered_base_yylex in H. rewrite bind_cases in H.
    destruct (get_next_token w) as [k0 w0 | |] eqn:Hg; try discriminate.
    pose proof (Hnext w w0 k0 Hg) as Hs0.
    assert (Hl0 : have_lookahead w0 = false).
    { unfold slot in Hs0. destruct (have_lookahead w0);
        [discriminate | reflexivity]. }
    rewrite lookahead_switch_cases in H.
    destruct (is_trigger k0).
    + destruct (base_yylex w0) as [k2 w2 | |] eqn:Hb; try discriminate.
      assert (Hl2 : have_lookahead w2 = false).
      { unfold base_yylex in Hb.
        destruct (scanbuf w0) as [| [t |] rest]; inversion Hb; subst; simpl;
          auto. }
      destruct (merge_of k0 k2); inversion H; subst; [congruence |].
      exists w0, w2, k2. repeat split; assumption.
    + inversion H; subst. congruence.
  - intros w t1 t2 rest Hp.
    rewrite (filtered_two w t1 t2 rest Hp), Hp.
    destruct (is_trigger (tok_kind t1)).
    + destruct (merge_of (tok_kind t1) (tok_kind t2)) as [m |] eqn:Hm.
      * exists m, (after_token t2 rest w), [t1; t2].
        split; [reflexivity |]. split; [| reflexivity].
        apply (covers_merged t1 t2 m). apply merge_of_registered. exact Hm.
      * exists (tok_kind t1), (after_buffer t1 t2 rest w), [t1].
        split; [reflexivity |].
        rewrite output_after_buffer, pending_after_buffer.
        split; [apply covers_single | reflexivity].
    + exists (tok_kind t1), (after_token t1 (Tok t2 :: rest) w), [t1].
      split; [reflexivity |].
      rewrite output_eta.
      split; [apply covers_single | reflexivity].
  - intros w t Hs.
    assert (Hp : pending w = Tok t :: scanbuf w).
    { unfold pending. rewrite Hs. reflexivity. }
    rewrite (filtered_pending w t (scanbuf w) Hp).
    rewrite (filtered_pending
               (set_scanbuf (Tok t :: scanbuf w) (set_have_lookahead false w))
               t (scanbuf w) eq_refl).
    reflexivity.
  - intros w t1 t2 t3 rest m Hp Ht1 Hm1 Hm2.
    assert (Ht2 : is_trigger (tok_kind t2) = true).
    { destruct (is_trigger (tok_kind t2)) eqn:Ht; [reflexivity |].
      rewrite (merge_of_not_trigger _ (tok_kind t3) Ht) in Hm2.
      discriminate. }
    exists (after_buffer t1 t2 (Tok t3 :: rest) w).
    exists (after_token t3 rest (after_buffer t1 t2 (Tok t3 :: rest) w)).
    split.
    { rewrite (filtered_two w t1 t2 (Tok t3 :: rest) Hp), Ht1, Hm1.
      reflexivity. }
    split; [apply output_after_buffer |].
    split; [apply slot_after_buffer |].
    split.
    { rewrite (filtered_two _ t2 t3 rest (pending_after_buffer _ _ _ _)),
        Ht2, Hm2.
      reflexivity. }
    repeat split.
  - intros w t1 t2 t3 rest Hp H1 H2 H3. token_facts Hnum.
    exists (after_buffer t1 t2 (Tok t3 :: rest) w).
    exists (after_token t3 rest (after_buffer t1 t2 (Tok t3 :: rest) w)).
    assert (Htrig : is_trigger (tok_kind t1) = true).
    { apply is_trigger_true. auto. }
    assert (Hcont : is_continuation (tok_kind t1) (tok_kind t2) = false).
    { rewrite H1, H2. unfold is_continuation, registered. simpl.
      decide_tests. rewrite ?andb_false_r. reflexivity. }
    split; [rewrite <- H1; apply filtered_buffer; assumption |].
    split; [rewrite <- H1; apply output_after_buffer |].
    split; [apply slot_after_buffer |].
    split; [| split; reflexivity].
    apply (filtered_merge WITH CHECK WITH_CHECK _ t2 t3 rest); auto.
    + simpl. tauto.
    + apply pending_after_buffer.
Qed.

End Facts.

(** * The properties on the small instance *)

#[local] Existing Instance Demo.demo_gram_h.
#[local] Existing Instance Demo.demo_scan_l.
#[local] Existing Instance Demo.demo_gram_y.

Import Demo.
Local Open Scope string_scope.
Local Open Scope list_scope.

Lemma demo_numbering : bison_numbering.
Proof.
  split.
  - unfold gram_tokens. simpl.
    repeat (constructor; [simpl; intuition discriminate |]).
    constructor.
  - unfold gram_tokens. simpl. repeat (constructor; [lia |]). constructor.
Defined.

(** WITH CHECK is handed out as WITH_CHECK. *)
Lemma filter_merges_registered_pairs_witness :
  bison_numbering /\
  exists w',
    filtered_base_yylex (demo_world with_check_stream) = Normal 269 w' /\
    pending w' = [tk 0 "" 10] /\
    slot w' = [] /\
    (have_lookahead (demo_world with_check_stream) = false ->
     scanbuf (demo_world with_check_stream) =
     tk 263 "WITH" 0 :: tk 266 "CHECK" 5 :: scanbuf w').
Proof.
  split; [exact demo_numbering |].
  destruct (filter_merges_registered_pairs
              (YYSTYPE := string) (YYLTYPE := Z) (Node := string)
              demo_numbering)
    as (_ & _ & _ & _ & Hcheck).
  exact (Hcheck (demo_world with_check_stream) _ _ _ eq_refl eq_refl eq_refl).
Defined.

(** NULLS FIRST: the merged token has the value and location of FIRST. *)
Lemma merged_token_has_continuation_payload_witness :
  bison_numbering /\
  In (258, 259, 261) registered /\
  pending (demo_world nulls_first_stream) =
    tk 258 "NULLS" 0 :: tk 259 "FIRST" 6 :: [tk 0 "" 11] /\
  exists w',
    filtered_base_yylex (demo_world nulls_first_stream) = Normal 261 w' /\
    base_yylval w' = "FIRST" /\
    base_yylloc w' = 6.
Proof.
  split; [exact demo_numbering |].
  split; [simpl; tauto |].
  split; [reflexivity |].
  exact (merged_token_has_continuation_payload demo_numbering 258 259 261
           (or_introl eq_refl) (demo_world nulls_first_stream)
           (mkToken 258 "NULLS" 0) (mkToken 259 "FIRST" 6) [tk 0 "" 11]
           eq_refl eq_refl eq_refl).
Defined.

(** C2 as stated fails on NULLS FIRST: the merged token does not carry the
    value "NULLS" and location 0 of the trigger. *)
Lemma merged_token_payload_counterexample :
  (exists w',
      filtered_base_yylex (demo_world nulls_first_stream) = Normal 261 w' /\
      base_yylval w' = "FIRST" /\ base_yylloc w' = 6) /\
  ~ (exists w',
        filtered_base_yylex (demo_world nulls_first_stream) = Normal 261 w' /\
        base_yylval w' = "NULLS" /\ base_yylloc w' = 0).
Proof.
  split.
  - eexists. split; [reflexivity |]. split; reflexivity.
  - intros (w' & Hf & Hv & _).
    vm_compute in Hf. injection Hf as <-. discriminate Hv.
Qed.



(** NULLS SELECT BAD: SELECT is buffered into the emptied slot and BAD
    stays with the scanner.  NULLS NULLS FIRST and WITH WITH CHECK: the
    second trigger, out of the slot, merges with its continuation. *)
Lemma lookahead_slot_single_witness :
  bison_numbering /\
  (filtered_base_yylex (demo_world nulls_select_bad_stream) =
     Normal 258 nulls_select_bad_1 /\
   have_lookahead nulls_select_bad_1 = true /\
   slot nulls_select_bad_1 = [mkToken 270 "SELECT" 6] /\
   scanbuf nulls_select_bad_1 = [tk 271 "BAD" 13] /\
   exists (w0 w2 : world string Z string) (k2 : Z),
     get_next_token (demo_world nulls_select_bad_stream) = Normal 258 w0 /\
     slot w0 = [] /\
     base_yylex w0 = Normal k2 w2 /\
     slot nulls_select_bad_1 = [output k2 w2] /\
     scanbuf nulls_select_bad_1 = scanbuf w2 /\
     output 258 nulls_select_bad_1 = output 258 w0) /\
  (exists (k : Z) (w' : world string Z string) (chunk : list (token string Z)),
      filtered_base_yylex (demo_world nulls_select_bad_stream) = Normal k w' /\
      covers (output k w') chunk /\
      map Tok chunk ++ pending w' =
      pending (demo_world nulls_select_bad_stream)) /\
  (exists w1 w2,
      filtered_base_yylex
        (demo_world [tk 258 "NULLS" 0; tk 258 "NULLS" 6; tk 259 "FIRST" 12]) =
        Normal 258 w1 /\
      output 258 w1 = mkToken 258 "NULLS" 0 /\
      slot w1 = [mkToken 258 "NULLS" 6] /\
      filtered_base_yylex w1 = Normal 261 w2 /\
      output 261 w2 = mkToken 261 "FIRST" 12 /\
      slot w2 = [] /\
      scanbuf w2 = []) /\
  (exists w1 w2,
      filtered_base_yylex (demo_world with_with_check_stream) = Normal 263 w1 /\
      output 263 w1 = mkToken 263 "WITH" 0 /\
      slot w1 = [mkToken 263 "WITH" 5] /\
      filtered_base_yylex w1 = Normal 269 w2 /\
      slot w2 = [] /\
      scanbuf w2 = []).
Proof.
  split; [exact demo_numbering |].
  destruct (lookahead_slot_single
              (YYSTYPE := string) (YYLTYPE := Z) (Node := string)
              demo_numbering)
    as (_ & _ & Hbuf & Hkeep & _ & Hchain & Hwwc).
  assert (Hfirst : filtered_base_yylex (demo_world nulls_select_bad_stream) =
                   Normal 258 nulls_select_bad_1).
  { vm_compute. reflexivity. }
  split; [| split; [| split]].
  - split; [exact Hfirst |].
    split; [reflexivity |].
    split; [reflexivity |].
    split; [reflexivity |].
    exact (Hbuf (demo_world nulls_select_bad_stream) nulls_select_bad_1 258
             Hfirst eq_refl).
  - exact (Hkeep (demo_world nulls_select_bad_stream)
             (mkToken 258 "NULLS" 0) (mkToken 270 "SELECT" 6)
             [tk 271 "BAD" 13] eq_refl).
  - exact (Hchain
             (demo_world
                [tk 258 "NULLS" 0; tk 258 "NULLS" 6; tk 259 "FIRST" 12])
             (mkToken 258 "NULLS" 0) (mkToken 258 "NULLS" 6)
             (mkToken 259 "FIRST" 12) [] 261
             eq_refl eq_refl eq_refl eq_refl).
  - exact (Hwwc (demo_world with_with_check_stream)
             (mkToken 263 "WITH" 0) (mkToken 263 "WITH" 5)
             (mkToken 266 "CHECK" 10) [] eq_refl eq_refl eq_refl eq_refl).
Defined.

(** WITH SELECT and the end of input, three calls. *)
Lemma filter_accounts_for_every_token_witness :
  slot (demo_world with_select_stream) = [] /\
  scanbuf (demo_world with_select_stream) =
    map Tok [mkToken 263 "WITH" 0; mkToken 270 "SELECT" 5; mkToken 0 "" 11] /\
  exists (outs : list (token string Z)) (w' : world string Z string)
         (chunks : list (list (token string Z))) (r : world string Z string),
    pull filtered_base_yylex 3 (demo_world with_select_stream) =
      Normal outs w' /\
    Forall2 covers outs chunks /\
    pull base_yylex (List.length (List.concat chunks ++ slot w'))
      (demo_world with_select_stream) =
      Normal (List.concat chunks ++ slot w') r /\
    scanbuf r = scanbuf w' /\
    (List.length (slot w') <= 1)%nat /\
    (3 <= List.length (List.concat chunks) <= 2 * 3)%nat /\
    ((List.length (List.concat chunks ++ slot w') <= 3)%nat ->
     map Tok (List.concat chunks ++ slot w') ++ scanbuf w' =
     map Tok [mkToken 263 "WITH" 0; mkToken 270 "SELECT" 5; mkToken 0 "" 11]).
Proof.
  split; [reflexivity |].
  split; [reflexivity |].
  exact (filter_accounts_for_every_token (G := demo_gram_h)
           [mkToken 263 "WITH" 0; mkToken 270 "SELECT" 5; mkToken 0 "" 11]
           3 (demo_world with_select_stream) eq_refl eq_refl).
Defined.

(** A lexeme the scanner cannot tokenize, a token the grammar raises on,
    and a query the grammar rejects by its return value. *)
Lemma raw_parser_failures_collapse_witness :
  (base_yyparse (after_prologue "?" (demo_world [])) =
     Longjmp lexical_error_end /\
   raw_parser "?" (demo_world []) =
     Normal NIL (after_finish lexical_error_end) /\
   calls_since (after_prologue "?" (demo_world []))
     (after_finish lexical_error_end) = [EvScannerFinish]) /\
  (base_yyparse (after_prologue "BAD" (demo_world [])) =
     Longjmp syntax_error_end /\
   raw_parser "BAD" (demo_world []) =
     Normal NIL (after_finish syntax_error_end) /\
   calls_since (after_prologue "BAD" (demo_world []))
     (after_finish syntax_error_end) = [EvScannerFinish]) /\
  (base_yyparse (after_prologue "SELECT" (demo_world [])) =
     Normal 1 reject_end /\
   raw_parser "SELECT" (demo_world []) =
     Normal NIL (after_finish reject_end) /\
   calls_since (after_prologue "SELECT" (demo_world []))
     (after_finish reject_end) = [EvScannerFinish]).
Proof.
  split; [| split].
  - split; [vm_compute; reflexivity |].
    apply (raw_parser_failures_collapse "?" (demo_world []) lexical_error_end).
    left. vm_compute. reflexivity.
  - split; [vm_compute; reflexivity |].
    apply (raw_parser_failures_collapse "BAD" (demo_world []) syntax_error_end).
    left. vm_compute. reflexivity.
  - split; [vm_compute; reflexivity |].
    apply (raw_parser_failures_collapse "SELECT" (demo_world []) reject_end).
    right. exists 1. split; [lia | vm_compute; reflexivity].
Defined.

(** A failing parse of BAD, then WITH CHECK: the second result is the one
    WITH CHECK has from a world with a stale parse tree and a full slot,
    with the toy grammar (the tree of WITH CHECK) and with the silent
    grammar ([NIL], not the stale tree). *)
Lemma raw_parser_sessions_independent_witness :
  bison_numbering /\
  (raw_parser_prologue "WITH CHECK" stale_world =
     Normal tt (after_prologue "WITH CHECK" stale_world) /\
   parsetree stale_world = ["stale"] /\
   slot stale_world = [mkToken 263 "WITH" 0] /\
   parsetree (after_prologue "WITH CHECK" stale_world) = NIL /\
   slot (after_prologue "WITH CHECK" stale_world) = [] /\
   scanbuf (after_prologue "WITH CHECK" stale_world) = scan "WITH CHECK" /\
   raw_parser "WITH CHECK" stale_world =
     match base_yyparse (after_prologue "WITH CHECK" stale_world) with
     | Normal yyresult u1 =>
         Normal (if negb (yyresult =? 0)%Z then NIL else parsetree u1)
                (after_finish u1)
     | Longjmp u1 => Normal NIL (after_finish u1)
     | Unfinished => Unfinished
     end) /\
  same_outcome (base_yyparse (after_prologue "WITH CHECK" (demo_world [])))
               (base_yyparse (after_prologue "WITH CHECK" stale_world)) /\
  (exists (r1 r2 : list string) (w1 w2 v2 : world string Z string),
      raw_parser "BAD" (demo_world []) = Normal r1 w1 /\
      raw_parser "WITH CHECK" w1 = Normal r2 w2 /\
      raw_parser "WITH CHECK" stale_world = Normal r2 v2) /\
  raw_parser "WITH CHECK" stale_world = Normal ["CHECK"] stale_parsed /\
  (exists (r1 r2 : list string) (w1 w2 v2 : world string Z string),
      raw_parser (E := demo_silent_gram_y) "BAD" (demo_world []) =
        Normal r1 w1 /\
      raw_parser (E := demo_silent_gram_y) "WITH CHECK" w1 = Normal r2 w2 /\
      raw_parser (E := demo_silent_gram_y) "WITH CHECK" stale_world =
        Normal r2 v2) /\
  raw_parser (E := demo_silent_gram_y) "WITH CHECK" stale_world =
    Normal NIL stale_silent_parsed.
Proof.
  split; [exact demo_numbering |].
  destruct (raw_parser_sessions_independent (E := demo_gram_y) demo_numbering
              "BAD" "WITH CHECK" (demo_world []) stale_world)
    as (Hreset & _ & Hsame).
  destruct (raw_parser_sessions_independent (E := demo_gram_y) demo_numbering
              "WITH CHECK" "WITH CHECK" (demo_world []) stale_world)
    as (_ & Hrun & _).
  destruct (raw_parser_sessions_independent (E := demo_silent_gram_y)
              demo_numbering "BAD" "WITH CHECK" (demo_world []) stale_world)
    as (_ & _ & Hsilent).
  destruct (Hreset "WITH CHECK" stale_world) as (Hp & Ht & Hs & Hb & Hr).
  split.
  { split; [exact Hp |].
    split; [reflexivity |].
    split; [reflexivity |].
    split; [exact Ht |].
    split; [exact Hs |].
    split; [exact Hb | exact Hr]. }
  split; [exact Hrun |].
  split; [exact Hsame |].
  split; [vm_compute; reflexivity |].
  split; [exact Hsilent |].
  vm_compute. reflexivity.
Defined.

(** NULLS and the end-of-input token. *)
Lemma trigger_at_end_of_stream_witness :
  bison_numbering /\
  exists w1 w2,
    filtered_base_yylex (demo_world nulls_eof_stream) = Normal 258 w1 /\
    output 258 w1 = mkToken 258 "NULLS" 0 /\
    slot w1 = [mkToken 0 "" 5] /\
    filtered_base_yylex w1 = Normal 0 w2 /\
    output 0 w2 = mkToken 0 "" 5 /\
    slot w2 = [] /\
    scanbuf w2 = [].
Proof.
  split; [exact demo_numbering |].
  destruct (trigger_at_end_of_stream
              (YYSTYPE := string) (YYLTYPE := Z) (Node := string)
              demo_numbering)
    as (Heof & _).
  exact (Heof (demo_world nulls_eof_stream)
           (mkToken 258 "NULLS" 0) (mkToken 0 "" 5) [] eq_refl eq_refl eq_refl).
Defined.

(** A first parse with no arena yet. *)
Lemma raw_parser_keeps_arena_witness :
  bison_numbering /\
  exists (r : list string) (w' : world string Z string),
    raw_parser "WITH CHECK" (demo_world []) = Normal r w' /\
    pool_memory w' = Some 1%nat /\
    filter is_pool_create (calls_since (demo_world []) w') =
      [EvPoolCreate 1%nat] /\
    filter is_pool_delete (calls_since (demo_world []) w') = [] /\
    (forall str2 : string,
        exists (r2 : list string) (w2 : world string Z string),
          raw_parser str2 w' = Normal r2 w2 /\
          pool_memory w2 = pool_memory w' /\
          filter is_pool_create (calls_since w' w2) = [] /\
          filter is_pool_delete (calls_since w' w2) = []) /\
    (exists w3 : world string Z string,
        free_parser w' = Normal tt w3 /\
        calls_since w' w3 = [EvPoolDelete (pool_memory w') 1]).
Proof.
  split; [exact demo_numbering |].
  exact (raw_parser_keeps_arena demo_numbering "WITH CHECK" (demo_world [])).
Defined.

(** [free_parser] after a parse, then another parse. *)
Lemma free_parser_keeps_handle_witness :
  bison_numbering /\
  pool_memory parsed_world = Some 1%nat /\
  exists w1 : world string Z string,
    free_parser parsed_world = Normal tt w1 /\
    pool_memory w1 = Some 1%nat /\
    calls_since parsed_world w1 = [EvPoolDelete (Some 1%nat) 1] /\
    exists (r : list string) (w2 : world string Z string),
      raw_parser "SELECT" w1 = Normal r w2 /\
      pool_memory w2 = Some 1%nat /\
      filter is_pool_create (calls_since w1 w2) = [].
Proof.
  split; [exact demo_numbering |].
  split; [reflexivity |].
  destruct (free_parser_keeps_handle demo_numbering parsed_world)
    as (w1 & Hf & Hpm & Hc & Hnext).
  exists w1. repeat (split; [assumption |]).
  exact (Hnext 1%nat "SELECT" eq_refl).
Defined.

(** SELECT, waiting in the slot after WITH was handed out. *)
Lemma non_trigger_passes_through_witness :
  pending with_select_1 = tk 270 "SELECT" 5 :: [tk 0 "" 11] /\
  is_trigger 270 = false /\
  exists w',
    filtered_base_yylex with_select_1 = Normal 270 w' /\
    output 270 w' = mkToken 270 "SELECT" 5 /\
    slot w' = [] /\
    pending w' = [tk 0 "" 11] /\
    (have_lookahead with_select_1 = true -> scanbuf w' = scanbuf with_select_1).
Proof.
  split; [reflexivity |].
  split; [reflexivity |].
  exact (non_trigger_passes_through (G := demo_gram_h) with_select_1
           (mkToken 270 "SELECT" 5) [tk 0 "" 11] eq_refl eq_refl).
Defined.

(** WITH WITH CHECK fuses to WITH, WITH_CHECK; two calls return that. *)
Lemma filter_computes_fuse_witness :
  bison_numbering /\
  slot (demo_world with_with_check_stream) = [] /\
  scanbuf (demo_world with_with_check_stream) =
    map Tok [mkToken 263 "WITH" 0; mkToken 263 "WITH" 5;
             mkToken 266 "CHECK" 10] /\
  fuse [mkToken 263 "WITH" 0; mkToken 263 "WITH" 5; mkToken 266 "CHECK" 10] =
    [mkToken 263 "WITH" 0; mkToken 269 "CHECK" 10] /\
  exists w',
    pull filtered_base_yylex 2 (demo_world with_with_check_stream) =
      Normal
        (firstn 2
           (fuse [mkToken 263 "WITH" 0; mkToken 263 "WITH" 5;
                  mkToken 266 "CHECK" 10])) w' /\
    (2%nat =
     List.length
       (fuse [mkToken 263 "WITH" 0; mkToken 263 "WITH" 5;
              mkToken 266 "CHECK" 10]) ->
     scanbuf w' = []).
Proof.
  split; [exact demo_numbering |].
  split; [reflexivity |].
  split; [reflexivity |].
  split; [reflexivity |].
  apply (filter_computes_fuse (G := demo_gram_h) demo_numbering 2
           [mkToken 263 "WITH" 0; mkToken 263 "WITH" 5; mkToken 266 "CHECK" 10]
           (demo_world with_with_check_stream) eq_refl eq_refl).
  simpl. lia.
Defined.

(** A bad lexeme behind WITH, and behind SELECT. *)
Lemma lexical_error_in_lookahead_witness :
  (pending (demo_world [tk 263 "WITH" 0; LexError]) =
     tk 263 "WITH" 0 :: LexError :: [] /\
   is_trigger 263 = true /\
   filtered_base_yylex (demo_world [tk 263 "WITH" 0; LexError]) =
     Longjmp (after_token (mkToken 263 "WITH" 0) []
                (demo_world [tk 263 "WITH" 0; LexError]))) /\
  (pending (demo_world [tk 270 "SELECT" 0; LexError]) =
     tk 270 "SELECT" 0 :: LexError :: [] /\
   is_trigger 270 = false /\
   filtered_base_yylex (demo_world [tk 270 "SELECT" 0; LexError]) =
     Normal 270 (after_token (mkToken 270 "SELECT" 0) [LexError]
                   (demo_world [tk 270 "SELECT" 0; LexError])) /\
   filtered_base_yylex
     (after_token (mkToken 270 "SELECT" 0) [LexError]
        (demo_world [tk 270 "SELECT" 0; LexError])) =
     Longjmp (after_token (mkToken 270 "SELECT" 0) []
                (demo_world [tk 270 "SELECT" 0; LexError]))).
Proof.
  split.
  - split; [reflexivity |]. split; [reflexivity |].
    exact (proj1 (lexical_error_in_lookahead (G := demo_gram_h)
                    (demo_world [tk 263 "WITH" 0; LexError])
                    (mkToken 263 "WITH" 0) [] eq_refl) eq_refl).
  - split; [reflexivity |]. split; [reflexivity |].
    exact (proj2 (lexical_error_in_lookahead (G := demo_gram_h)
                    (demo_world [tk 270 "SELECT" 0; LexError])
                    (mkToken 270 "SELECT" 0) [] eq_refl) eq_refl).
Defined.

(** After WITH of WITH SELECT the slot holds SELECT. *)
Lemma full_slot_follows_trigger_witness :
  filtered_base_yylex (demo_world with_select_stream) =
    Normal 263 with_select_1 /\
  have_lookahead with_select_1 = true /\
  is_trigger 263 = true /\
  merge_of 263 (lookahead_token with_select_1) = None.
Proof.
  split; [vm_compute; reflexivity |].
  split; [reflexivity |].
  apply (full_slot_follows_trigger (G := demo_gram_h)
           (demo_world with_select_stream) with_select_1 263).
  - vm_compute. reflexivity.
  - reflexivity.
Defined.

(** A rejected query, with no arena yet. *)
Lemma raw_parser_call_sequence_witness :
  bison_numbering /\
  exists (r : list string) (w' : world string Z string),
    raw_parser "SELECT" (demo_world []) = Normal r w' /\
    calls_since (demo_world []) w' =
      [EvPoolCreate 1%nat] ++
      [EvScannerInit "SELECT"; EvParserInit; EvScannerFinish].
Proof.
  split; [exact demo_numbering |].
  exact (raw_parser_call_sequence demo_numbering "SELECT" (demo_world [])).
Defined.

Lemma demo_silent_never_assigns : never_assigns demo_silent_gram_y.
Proof. split; intros; reflexivity. Defined.

(** The silent grammar, started with a stale parse tree. *)
Lemma raw_parser_result_cleared_witness :
  bison_numbering /\
  never_assigns demo_silent_gram_y /\
  parsetree stale_world = ["stale"] /\
  exists w' : world string Z string,
    raw_parser (E := demo_silent_gram_y) "WITH CHECK" stale_world =
      Normal NIL w'.
Proof.
  split; [exact demo_numbering |].
  split; [exact demo_silent_never_assigns |].
  split; [reflexivity |].
  exact (raw_parser_result_cleared (E := demo_silent_gram_y) demo_numbering
           demo_silent_never_assigns "WITH CHECK" stale_world).
Defined.

(** WITH CHECK is accepted; its one token has the value of CHECK. *)
Lemma raw_parser_result_means_accept_witness :
  raw_parser "WITH CHECK" (demo_world []) = Normal ["CHECK"] parsed_world /\
  ["CHECK"] <> NIL /\
  exists w1 : world string Z string,
    base_yyparse (after_prologue "WITH CHECK" (demo_world [])) = Normal 0 w1 /\
    parsed_world = after_finish w1 /\
    ["CHECK"] = parsetree w1 /\
    parsetree parsed_world = ["CHECK"].
Proof.
  split; [vm_compute; reflexivity |].
  split; [discriminate |].
  apply (raw_parser_result_means_accept "WITH CHECK" (demo_world [])
           parsed_world ["CHECK"]).
  - vm_compute. reflexivity.
  - discriminate.
Defined.
